(** * FleaHive: the summarizer, tag extractor and metrics

    A shallow embedding of [FleaHive.py].  A Python [str] is a list of
    code points, a Python [int] is a [Z].  The regular expressions of the
    script are kept as syntax trees and run by a backtracking matcher with
    the search order of Python's [re] (leftmost, alternatives left to
    right, greedy and lazy repetition).  The Unicode tables the script
    reaches through [\w], [\d], [str.lower] and [re.I] are taken as
    parameters, so that every general statement holds whatever they are;
    the ASCII tables instantiate them on concrete inputs.

    The embedding provider bound to the module-level [model] is an
    optional external dependency: [summarize] and [run_script] are the
    keyword mode ([model] is [None]), [summarize_with] and
    [run_script_with] take the provider as a parameter. *)

From Stdlib Require Import Ascii String.
From Stdlib Require Import List ZArith NArith Lia Bool Arith.
From Stdlib Require Import Permutation Sorted.
From Stdlib Require Import Floats Uint63 DecimalString.
Import ListNotations.

Set Implicit Arguments.

(** ** Strings *)

Definition char := N.
Definition str := list char.

Definition chr (a : ascii) : char := N_of_ascii a.

(** A string literal of the source (ASCII only). *)
Definition lit (s : string) : str := map chr (list_ascii_of_string s).

Definition ceq (a b : char) : bool := N.eqb a b.

Fixpoint str_eqb (a b : str) : bool :=
  match a, b with
  | [], [] => true
  | x :: a', y :: b' => ceq x y && str_eqb a' b'
  | _, _ => false
  end.

(** [a < b] on strings: lexicographic on code points. *)
Fixpoint str_ltb (a b : str) : bool :=
  match a, b with
  | _, [] => false
  | [], _ :: _ => true
  | x :: a', y :: b' =>
      if N.ltb x y then true
      else if N.ltb y x then false
      else str_ltb a' b'
  end.

Definition len (s : str) : Z := Z.of_nat (length s).

(** [s[:n]] for an [int] n: a negative bound counts from the end. *)
Definition slice_to (s : str) (n : Z) : str :=
  if (0 <=? n)%Z then firstn (Z.to_nat n) s
  else firstn (Z.to_nat (len s + n)) s.

(** [sep.join(parts)] *)
Fixpoint join (sep : str) (parts : list str) : str :=
  match parts with
  | [] => []
  | [p] => p
  | p :: rest => p ++ sep ++ join sep rest
  end.

(** [str.isspace] on one code point; also [\s] of [re] on [str] patterns. *)
Definition is_space (c : char) : bool :=
  ((9 <=? c) && (c <=? 13) || (28 <=? c) && (c <=? 32)
   || (c =? 133) || (c =? 160) || (c =? 5760)
   || (8192 <=? c) && (c <=? 8202)
   || (c =? 8232) || (c =? 8233) || (c =? 8239) || (c =? 8287)
   || (c =? 12288))%N.

Fixpoint lstrip (s : str) : str :=
  match s with
  | c :: s' => if is_space c then lstrip s' else s
  | [] => []
  end.

Definition rstrip (s : str) : str := rev (lstrip (rev s)).

(** [s.strip()] *)
Definition strip (s : str) : str := rstrip (lstrip s).

(** [needle in hay] *)
Fixpoint is_prefix (p s : str) : bool :=
  match p, s with
  | [], _ => true
  | x :: p', y :: s' => ceq x y && is_prefix p' s'
  | _ :: _, [] => false
  end.

Fixpoint contains (hay needle : str) : bool :=
  is_prefix needle hay ||
  match hay with
  | [] => false
  | _ :: hay' => contains hay' needle
  end.

(** ** Regular expressions *)

(** The fragment of [re] syntax the script uses.  Every repetition in the
    script is over a single character class. *)
Inductive regex :=
| Eps
| Chr (p : char -> bool)                    (* literal, class, [.] *)
| Cat (r1 r2 : regex)
| Alt (r1 r2 : regex)                       (* r1|r2 *)
| Rep (greedy : bool) (min : nat) (p : char -> bool)
                                            (* p*, p+ and their lazy forms *)
| Bol (multiline : bool)                    (* ^ *)
| Grp (r : regex).                          (* group 1 *)

(** Where the matcher stands: the character before the position (if any),
    the number of characters matched so far, the text ahead and the
    contents of group 1. *)
Record mstate := MState {
  prev : option char;
  pos : nat;
  rest : str;
  cap : str
}.

Definition newline : char := 10%N.

Definition at_bol (multiline : bool) (p : option char) : bool :=
  match p with
  | None => true
  | Some c => multiline && ceq c newline
  end.

Section Matcher.
Variable A : Type.

(** [p{min,}] followed by [k], longest first. *)
Fixpoint rep_greedy (p : char -> bool) (min : nat) (pv : option char)
    (n : nat) (s : str) (cp : str) (k : mstate -> option A) : option A :=
  let stop := match min with
              | O => k (MState pv n s cp)
              | S _ => None
              end in
  match s with
  | c :: s' =>
      if p c then
        match rep_greedy p (Nat.pred min) (Some c) (S n) s' cp k with
        | Some x => Some x
        | None => stop
        end
      else stop
  | [] => stop
  end.

(** [p{min,}?] followed by [k], shortest first. *)
Fixpoint rep_lazy (p : char -> bool) (min : nat) (pv : option char)
    (n : nat) (s : str) (cp : str) (k : mstate -> option A) : option A :=
  let more :=
    match s with
    | c :: s' =>
        if p c then rep_lazy p (Nat.pred min) (Some c) (S n) s' cp k
        else None
    | [] => None
    end in
  match min with
  | O => match k (MState pv n s cp) with
         | Some x => Some x
         | None => more
         end
  | S _ => more
  end.

(** Backtracking matcher in continuation-passing style: [k] is what
    remains to be matched after [r]. *)
Fixpoint run (r : regex) (st : mstate) (k : mstate -> option A)
    : option A :=
  match r with
  | Eps => k st
  | Chr p =>
      match rest st with
      | c :: s' =>
          if p c then k (MState (Some c) (S (pos st)) s' (cap st))
          else None
      | [] => None
      end
  | Cat r1 r2 => run r1 st (fun st' => run r2 st' k)
  | Alt r1 r2 =>
      match run r1 st k with
      | Some x => Some x
      | None => run r2 st k
      end
  | Rep true min p => rep_greedy p min (prev st) (pos st) (rest st) (cap st) k
  | Rep false min p => rep_lazy p min (prev st) (pos st) (rest st) (cap st) k
  | Bol ml => if at_bol ml (prev st) then k st else None
  | Grp r1 =>
      run r1 st (fun st' =>
        k (MState (prev st') (pos st') (rest st')
                  (firstn (pos st' - pos st) (rest st))))
  end.
End Matcher.

(** One match attempt at the current position: the length of the match
    and group 1. *)
Definition match_at (r : regex) (pv : option char) (s : str)
    : option (nat * str) :=
  run r (MState pv 0 s []) (fun st => Some (pos st, cap st)).

(** [re.sub(r, repl, s)], [repl] given as a function of group 1.  After a
    match of n > 0 characters the next n - 1 are skipped. *)
Fixpoint sub_from (r : regex) (repl : str -> str) (skip : nat)
    (pv : option char) (s : str) : str :=
  match s with
  | [] =>
      match skip, match_at r pv [] with
      | O, Some (_, g) => repl g
      | _, _ => []
      end
  | c :: s' =>
      match skip with
      | S n => sub_from r repl n (Some c) s'
      | O =>
          match match_at r pv s with
          | Some (O, g) => repl g ++ c :: sub_from r repl 0 (Some c) s'
          | Some (S n, g) => repl g ++ sub_from r repl n (Some c) s'
          | None => c :: sub_from r repl 0 (Some c) s'
          end
      end
  end.

Definition re_sub (r : regex) (repl : str -> str) (s : str) : str :=
  sub_from r repl 0 None s.

(** [re.search(r, s)]: start of the leftmost match. *)
Fixpoint search_from (r : regex) (i : nat) (pv : option char) (s : str)
    : option nat :=
  match match_at r pv s with
  | Some _ => Some i
  | None =>
      match s with
      | [] => None
      | c :: s' => search_from r (S i) (Some c) s'
      end
  end.

Definition re_search (r : regex) (s : str) : option nat :=
  search_from r 0 None s.

(** [re.findall(r, s)] for a pattern without groups. *)
Fixpoint findall_from (r : regex) (skip : nat) (pv : option char) (s : str)
    : list str :=
  match s with
  | [] =>
      match skip, match_at r pv [] with
      | O, Some _ => [[]]
      | _, _ => []
      end
  | c :: s' =>
      match skip with
      | S n => findall_from r n (Some c) s'
      | O =>
          match match_at r pv s with
          | Some (O, _) => [] :: findall_from r 0 (Some c) s'
          | Some (S n, _) => firstn (S n) s :: findall_from r n (Some c) s'
          | None => findall_from r 0 (Some c) s'
          end
      end
  end.

Definition re_findall (r : regex) (s : str) : list str :=
  findall_from r 0 None s.

(** [re.split(r, s)] for a pattern that matches no empty string; [acc]
    holds the piece being collected, last character first. *)
Fixpoint split_from (r : regex) (skip : nat) (pv : option char) (s : str)
    (acc : str) : list str :=
  match s with
  | [] => [rev acc]
  | c :: s' =>
      match skip with
      | S n => split_from r n (Some c) s' acc
      | O =>
          match match_at r pv s with
          | Some (S n, _) => rev acc :: split_from r n (Some c) s' []
          | _ => split_from r 0 (Some c) s' (c :: acc)
          end
      end
  end.

Definition re_split (r : regex) (s : str) : list str :=
  split_from r 0 None s [].

(** ** Unicode tables *)

(** What the script takes from Python's Unicode database. *)
Record unicode := Unicode {
  u_word : char -> bool;             (* [\w] *)
  u_digit : char -> bool;            (* [\d] *)
  u_lower : str -> str;              (* [str.lower] *)
  u_ci : char -> char -> bool        (* [re.I]: pattern letter, text character *)
}.

Definition between (lo hi c : char) : bool := ((lo <=? c) && (c <=? hi))%N.

Definition is_ascii_letter (c : char) : bool :=
  between 65%N 90%N c || between 97%N 122%N c.

(** ** Pattern syntax helpers *)

Definition any_char : char -> bool := fun _ => true.          (* [\s\S] *)
Definition dot : char -> bool := fun c => negb (ceq c newline). (* . *)
Definition non_space : char -> bool := fun c => negb (is_space c). (* \S *)
Definition one_of (cs : str) : char -> bool :=
  fun c => existsb (ceq c) cs.
Definition none_of (cs : str) : char -> bool :=
  fun c => negb (existsb (ceq c) cs).

(** A run of literal characters. *)
Fixpoint Lits (s : str) : regex :=
  match s with
  | [] => Eps
  | c :: s' => Cat (Chr (ceq c)) (Lits s')
  end.

(** The same under [re.I]: letters match up to case, other characters
    match themselves. *)
Fixpoint LitsI (U : unicode) (s : str) : regex :=
  match s with
  | [] => Eps
  | c :: s' =>
      Cat (Chr (if is_ascii_letter c then u_ci U c else ceq c)) (LitsI U s')
  end.

(** ** Counter and sorting *)

(** [sorted(l, reverse=True)] by insertion: an element goes after the
    elements greater than it and before its equals that came later. *)
Section Sorting.
Variable T : Type.
Variable ltb : T -> T -> bool.

Fixpoint insert_desc (x : T) (l : list T) : list T :=
  match l with
  | [] => [x]
  | y :: l' => if ltb x y then y :: insert_desc x l' else x :: l
  end.

Definition sorted_desc (l : list T) : list T :=
  fold_right insert_desc [] l.
End Sorting.

(** A [Counter]: keys in order of first insertion, with their counts. *)
Definition counter := list (str * Z).

Fixpoint counter_incr (w : str) (cs : counter) : counter :=
  match cs with
  | [] => [(w, 1%Z)]
  | (k, n) :: cs' =>
      if str_eqb k w then (k, (n + 1)%Z) :: cs'
      else (k, n) :: counter_incr w cs'
  end.

Definition Counter (words : list str) : counter :=
  fold_left (fun cs w => counter_incr w cs) words [].

Definition count_ltb (a b : str * Z) : bool := (snd a <? snd b)%Z.

(** [Counter.most_common(n)], that is
    [sorted(items, key=itemgetter(1), reverse=True)[:n]]; nothing for
    n <= 0. *)
Definition most_common (n : Z) (cs : counter) : counter :=
  firstn (Z.to_nat n) (sorted_desc count_ltb cs).

(** [<] on the tuples [(score, sentence)]. *)
Definition pair_ltb (a b : Z * str) : bool :=
  if (fst a =? fst b)%Z then str_ltb (snd a) (snd b)
  else (fst a <? fst b)%Z.

(** [<] on the tuples [(score, sentence)] of the semantic mode, the score
    a double: the first components are compared with [==], then [<]
    decides on the first pair that differs. *)
Definition fpair_ltb (a b : float * str) : bool :=
  if PrimFloat.eqb (fst a) (fst b) then str_ltb (snd a) (snd b)
  else PrimFloat.ltb (fst a) (fst b).

Definition str_eq_dec : forall a b : str, {a = b} + {a <> b} :=
  list_eq_dec N.eq_dec.

(** ** Formatting a ratio *)

(** [a / b] on two lengths: the quotient as a double.  Lengths are below
    2^53, where the conversion to a double is exact. *)
Definition true_div (a b : Z) : float :=
  PrimFloat.div (PrimFloat.of_uint63 (Uint63.of_Z a))
                (PrimFloat.of_uint63 (Uint63.of_Z b)).

(** The nearest integer to [m * 2^e], ties to even. *)
Definition round_half_even (m e : Z) : Z :=
  if (0 <=? e)%Z then (m * 2 ^ e)%Z
  else
    let d := (2 ^ (- e))%Z in
    let q := (m / d)%Z in
    let r := (m mod d)%Z in
    if (d <? 2 * r)%Z then (q + 1)%Z
    else if (2 * r =? d)%Z && Z.odd q then (q + 1)%Z
    else q.

Definition decimal (n : Z) : str :=
  lit (NilZero.string_of_uint (N.to_uint (Z.to_N n))).

(** [f"{x:.1%}"]: the double is multiplied by 100 and printed with one
    digit after the point, correctly rounded. *)
Definition format_percent1 (x : float) : str :=
  match Prim2SF (PrimFloat.mul x 100%float) with
  | S754_zero false => lit "0.0%"
  | S754_zero true => lit "-0.0%"
  | S754_finite sg m e =>
      let t := round_half_even (Z.pos m * 10) e in
      (if sg then lit "-" else []) ++
      decimal (t / 10) ++ lit "." ++ decimal (t mod 10) ++ lit "%"
  | S754_infinity false => lit "inf%"
  | S754_infinity true => lit "-inf%"
  | S754_nan => lit "nan%"
  end.

(** ** The script *)

Record metrics := Metrics {
  original_words : Z;
  summary_words : Z;
  compression : str
}.

(** The record printed at the end of a run. *)
Record report := Report {
  summary : str;
  tags : list str;
  metrics_of : metrics
}.

Definition ellipsis : char := 8230%N.

Definition nothing_msg : str := lit "Nothing to summarize after cleaning.".

Definition stop : list str := map lit
  ["the";"and";"for";"with";"this";"that";"from";"were";"been";"have";
   "using";"used";"which";"their";"they";"will";"would";"there";"these";
   "about";"when";"what";"where";"is";"are";"was";"not";"but";"all";"into";
   "can";"has";"more";"one";"its";"out";"also";"than";"other";"some";"very";
   "only";"time";"just";"even";"most";"like";"may";"such";"each";"new";
   "based";"our";"results";"study";"method";"approach";"proposed"]%string.

Definition mem (w : str) (l : list str) : bool := existsb (str_eqb w) l.

(** The embedding provider bound to [model] when the import of line 11
    succeeds: [encode] is [model.encode] on a list of strings, one vector
    per string or an exception ([None]); [matmul u v] is [float(u @ v)]. *)
Record provider := Provider {
  vec : Type;
  encode : list str -> option (list vec);
  matmul : vec -> vec -> float
}.

(** Lines 47-49: the score of every sentence against the document, or
    [None] when [encode] raises or gives no row for [embeddings[0]]. *)
Definition embedding_scores (m : provider) (text : str)
    (sentences : list str) : option (list float) :=
  match encode m (text :: sentences) with
  | Some (doc_vec :: embeddings) => Some (map (matmul m doc_vec) embeddings)
  | _ => None
  end.

(** Lines 56-63 of [summarize]: the walk over [ranked] and the return. *)
Fixpoint take_budget {T : Type} (ranked : list (T * str))
    (used max_len : Z) : list str :=
  match ranked with
  | [] => []
  | (_, s) :: ranked' =>
      if (used + len s <=? max_len)%Z
      then s :: take_budget ranked' (used + len s)%Z max_len
      else []
  end.

Definition select_budget {T : Type} (ranked : list (T * str))
    (text : str) (max_len : Z) : str :=
  let result := take_budget ranked 0 max_len in
  match join (lit " ") result with
  | [] => slice_to text max_len ++ [ellipsis]
  | joined => joined
  end.

(** The selector of the specification: sort, walk, join. *)
Definition select (scored : list (Z * str)) (text : str) (max_len : Z)
    : str :=
  select_budget (sorted_desc pair_ltb scored) text max_len.

Section Script.
Variable U : unicode.

(** Iteration order of a Python [set] of strings: it depends on the
    hash seed of the process. *)
Variable set_iter : list str -> list str.

Definition set_of (l : list str) : list str :=
  set_iter (nodup str_eq_dec l).

(** [(?m)^---[\s\S]+?---] *)
Definition frontmatter_re : regex :=
  Cat (Bol true) (Cat (Lits (lit "---"))
    (Cat (Rep false 1 any_char) (Lits (lit "---")))).

(** [\[([^\]]+)\]\([^\)]+\)] *)
Definition link_re : regex :=
  Cat (Lits (lit "[")) (Cat (Grp (Rep true 1 (none_of (lit "]"))))
    (Cat (Lits (lit "](")) (Cat (Rep true 1 (none_of (lit ")")))
      (Lits (lit ")"))))).

(** [(?i)@article{[^}]+}|https?://\S+|doi:\S+] *)
Definition noise_re : regex :=
  Alt (Cat (LitsI U (lit "@article{"))
        (Cat (Rep true 1 (none_of (lit "}"))) (Lits (lit "}"))))
   (Alt (Cat (LitsI U (lit "http"))
          (Cat (Alt (LitsI U (lit "s")) Eps)
            (Cat (Lits (lit "://")) (Rep true 1 non_space))))
        (Cat (LitsI U (lit "doi:")) (Rep true 1 non_space))).

(** [!\[.*?\]\([^\)]+\)] *)
Definition image_re : regex :=
  Cat (Lits (lit "![")) (Cat (Rep false 0 dot)
    (Cat (Lits (lit "](")) (Cat (Rep true 1 (none_of (lit ")")))
      (Lits (lit ")"))))).

(** [[*#>`~]] *)
Definition markup_re : regex := Chr (one_of (lit "*#>`~")).

(** [^Table\s*\d+.*|^Figure\s*\d+.*] with [re.M|re.I] *)
Definition caption_re : regex :=
  Alt (Cat (Bol true) (Cat (LitsI U (lit "Table"))
        (Cat (Rep true 0 is_space) (Cat (Rep true 1 (u_digit U))
          (Rep true 0 dot)))))
      (Cat (Bol true) (Cat (LitsI U (lit "Figure"))
        (Cat (Rep true 0 is_space) (Cat (Rep true 1 (u_digit U))
          (Rep true 0 dot))))).

(** [(?i)\n\s*(references|bibliography|appendix)\s*\n] *)
Definition cutoff_re : regex :=
  Cat (Chr (ceq newline)) (Cat (Rep true 0 is_space)
    (Cat (Grp (Alt (LitsI U (lit "references"))
                (Alt (LitsI U (lit "bibliography"))
                     (LitsI U (lit "appendix")))))
      (Cat (Rep true 0 is_space) (Chr (ceq newline))))).

Definition erase : str -> str := fun _ => [].

Definition remove_frontmatter (text : str) : str :=
  re_sub frontmatter_re erase text.

Definition clean (text : str) : str :=
  let text := remove_frontmatter text in
  let text := re_sub link_re (fun g => g) text in
  let text := re_sub noise_re erase text in
  let text := re_sub image_re erase text in
  let text := re_sub markup_re erase text in
  let text := re_sub caption_re erase text in
  let text := match re_search cutoff_re text with
              | Some i => firstn i text
              | None => text
              end in
  strip text.

(** [[.!?]+] and [\w+] *)
Definition punct_re : regex := Rep true 1 (one_of (lit ".!?")).
Definition word_re : regex := Rep true 1 (u_word U).

(** Line 42, on the clean text. *)
Definition segment (text : str) : list str :=
  map strip
    (filter (fun s => (20 <? len (strip s))%Z) (re_split punct_re text)).

Definition b2z (b : bool) : Z := if b then 1%Z else 0%Z.

(** [sum(w[:5] in s.lower() for w in common)] *)
Definition score (common : list str) (s : str) : Z :=
  fold_right (fun w acc => (b2z (contains (u_lower U s) (firstn 5 w)) + acc)%Z)
    0%Z common.

Definition common_set (text : str) : list str :=
  let words := re_findall word_re (u_lower U text) in
  set_of (map fst (filter (fun wc => (4 <? len (fst wc))%Z)
                     (most_common 20 (Counter words)))).

(** The list sorted on line 54, before sorting. *)
Definition scored (text : str) (sentences : list str) : list (Z * str) :=
  let common := common_set text in
  map (fun s => (score common s, s)) sentences.

Definition summarize (text : str) (max_len : Z) : str :=
  let text := clean text in
  let sentences := segment text in
  match sentences with
  | [] => nothing_msg
  | _ =>
      let ranked := sorted_desc pair_ltb (scored text sentences) in
      select_budget ranked text max_len
  end.

(** [summarize] for either value of the module-level [model]: [Some m]
    is a provider (lines 47-50), [None] the keyword mode (lines 52-54),
    where it is [summarize] above.  [zip] is [combine]; the result is
    [None] when the provider raises.  The sort of line 50 is exact when
    no score is a NaN, which compares false with everything. *)
Definition summarize_with (model : option provider) (text : str)
    (max_len : Z) : option str :=
  let text := clean text in
  let sentences := segment text in
  match sentences with
  | [] => Some nothing_msg
  | _ =>
      match model with
      | Some m =>
          match embedding_scores m text sentences with
          | Some scores =>
              let ranked :=
                sorted_desc fpair_ltb (combine scores sentences) in
              Some (select_budget ranked text max_len)
          | None => None
          end
      | None =>
          let ranked := sorted_desc pair_ltb (scored text sentences) in
          Some (select_budget ranked text max_len)
      end
  end.

Definition candidates (text : str) : list str :=
  filter (fun w => negb (mem w stop) && (3 <? len w)%Z)
    (re_findall word_re (u_lower U text)).

Definition tag (text : str) (top : Z) : list str :=
  map fst (most_common top (Counter (candidates text))).

(** Lines 90-101: one run on the text read from the file. *)
Definition run_script (text : str) : report :=
  let summary := summarize text 450 in
  let tags := tag (summary ++ text) 8 in
  {| summary := summary;
     tags := tags;
     metrics_of := {|
       original_words := Z.of_nat (length (re_findall word_re text));
       summary_words := Z.of_nat (length (re_findall word_re summary));
       compression :=
         format_percent1 (true_div (len summary) (Z.max (len text) 1))
     |}
  |}.

(** Lines 90-101 for either value of [model]; [None] when line 90
    raises. *)
Definition run_script_with (model : option provider) (text : str)
    : option report :=
  match summarize_with model text 450 with
  | Some summary =>
      let tags := tag (summary ++ text) 8 in
      Some {| summary := summary;
              tags := tags;
              metrics_of := {|
                original_words :=
                  Z.of_nat (length (re_findall word_re text));
                summary_words :=
                  Z.of_nat (length (re_findall word_re summary));
                compression :=
                  format_percent1
                    (true_div (len summary) (Z.max (len text) 1))
              |}
           |}
  | None => None
  end.
End Script.

(** ** ASCII tables *)

Definition ascii_lower_char (c : char) : char :=
  if between 65%N 90%N c then (c + 32)%N else c.

Definition ascii_tables : unicode := {|
  u_word := fun c => is_ascii_letter c || between 48%N 57%N c || ceq c 95%N;
  u_digit := between 48%N 57%N;
  u_lower := map ascii_lower_char;
  u_ci := fun l c => ceq (ascii_lower_char l) (ascii_lower_char c)
|}.

(** The insertion order stands for one fixed hash seed. *)
Definition seed0 : list str -> list str := fun l => l.

(** ** Vocabulary of the statements *)

(** Sum of the lengths of a list of strings. *)
Definition total_len (l : list str) : Z :=
  fold_right (fun s acc => (len s + acc)%Z) 0%Z l.

Definition is_punct : char -> bool := one_of (lit ".!?").

(** [p0 ++ s0 ++ p1 ++ s1 ++ ... ++ pn] *)
Fixpoint interleave (pieces seps : list str) : str :=
  match pieces, seps with
  | p :: pieces', sp :: seps' => p ++ sp ++ interleave pieces' seps'
  | p :: _, [] => p
  | [], _ => []
  end.

(** Number of occurrences of [w] in [l]. *)
Definition occurrences (w : str) (l : list str) : Z :=
  Z.of_nat (count_occ str_eq_dec l w).


(** [needle] occurs in [hay] as a block of consecutive characters. *)
Definition substring (needle hay : str) : Prop :=
  exists a b, hay = a ++ needle ++ b.

(** [t] is [s] without the white space at its two ends. *)
Definition trimmed_of (s t : str) : Prop :=
  exists a b, s = a ++ t ++ b /\
    forallb is_space a = true /\ forallb is_space b = true /\
    (forall c t', t = c :: t' -> is_space c = false) /\
    (forall c t', t = t' ++ [c] -> is_space c = false).

(** Every match of [r] holds a character satisfying [p]. *)
Fixpoint needs (p : char -> bool) (r : regex) : Prop :=
  match r with
  | Eps => False
  | Chr q => forall c, q c = true -> p c = true
  | Cat r1 r2 => needs p r1 \/ needs p r2
  | Alt r1 r2 => needs p r1 /\ needs p r2
  | Rep _ min q => (0 < min)%nat /\ forall c, q c = true -> p c = true
  | Bol _ => False
  | Grp r1 => needs p r1
  end.

(** Characters that can start or close a pattern of [clean] other than the
    captions of tables and figures: [-], [[], [@], [:], a line feed and the
    markup symbols. *)
Definition is_trigger (c : char) : bool :=
  one_of (lit "-[@:*#>`~") c || ceq c newline.

(** Length of the longest prefix of [s] made of characters in [p]. *)
Fixpoint span_len (p : char -> bool) (s : str) : nat :=
  match s with
  | c :: s' => if p c then S (span_len p s') else O
  | [] => O
  end.

(** Every string of the list but the last is non-empty. *)
Fixpoint inner_nonempty (ps : list str) : Prop :=
  match ps with
  | [] => True
  | p :: ps' =>
      match ps' with
      | [] => True
      | _ :: _ => p <> [] /\ inner_nonempty ps'
      end
  end.

Definition no_punct (s : str) : Prop :=
  forallb (fun c => negb (is_punct c)) s = true.

Definition punct_run (s : str) : Prop :=
  s <> [] /\ forallb is_punct s = true.

(** The distinct strings of [l], in the order in which they are first
    met. *)
Definition keys_add (ks : list str) (w : str) : list str :=
  if mem w ks then ks else ks ++ [w].

Definition first_occ (l : list str) : list str := fold_left keys_add l [].


(** No character of [s] satisfies [p]. *)
Definition free (p : char -> bool) (s : str) : Prop :=
  forallb (fun c => negb (p c)) s = true.

(** A character that can take part in a match of one of the patterns of
    [clean]: a trigger or a decimal digit. *)
Definition is_noise (U : unicode) (c : char) : bool :=
  is_trigger c || u_digit U c.

(** [a] may stand before [b] in a list sorted downwards by [ltb]. *)
Definition geb (T : Type) (ltb : T -> T -> bool) (a b : T) : Prop :=
  ltb a b = false.


(** A continuation that fails wherever the text ahead is free of [p]. *)
Definition fails_on_free (A : Type) (p : char -> bool)
    (k : mstate -> option A) : Prop :=
  forall st, free p (rest st) -> k st = None.

(** [a] is [b] with some characters left out. *)
Inductive subseq : str -> str -> Prop :=
| subseq_nil : subseq [] []
| subseq_skip c a b : subseq a b -> subseq a (c :: b)
| subseq_keep c a b : subseq a b -> subseq (c :: a) (c :: b).

(** The matcher went from [st] to [st'] over the characters [w]; group 1
    is as before or a block of [w]. *)
Definition advances (st st' : mstate) : Prop :=
  exists w,
    rest st = w ++ rest st' /\
    pos st' = (pos st + length w)%nat /\
    (cap st' = cap st \/ substring (cap st') w).

(** The pattern has no [^]. *)
Fixpoint bol_free (r : regex) : Prop :=
  match r with
  | Bol _ => False
  | Cat r1 r2 | Alt r1 r2 => bol_free r1 /\ bol_free r2
  | Grp r1 => bol_free r1
  | _ => True
  end.

(** Two states that differ at most in the character before. *)
Definition same_ahead (st st' : mstate) : Prop :=
  pos st = pos st' /\ rest st = rest st' /\ cap st = cap st'.

(** Two continuations that agree on states with the same text ahead. *)
Definition agree (A : Type) (k k' : mstate -> option A) : Prop :=
  forall a b, same_ahead a b -> k a = k' b.

(** The character before the position once [w] has been read. *)
Fixpoint prev_after (w : str) (pv : option char) : option char :=
  match w with
  | [] => pv
  | c :: w' => prev_after w' (Some c)
  end.

(** Lines 35-36 of [clean]: cut the text at the first heading line. *)
Definition cut_references (U : unicode) (text : str) : str :=
  match re_search (cutoff_re U) text with
  | Some i => firstn i text
  | None => text
  end.

(** [w] matches the literal [pat] under [re.I], character by character. *)
Definition ci_word (U : unicode) (pat w : str) : Prop :=
  Forall2 (fun l c => (if is_ascii_letter l then u_ci U l c else ceq l c)
                      = true) pat w.

(** [h] is one of the three heading words, in any letter case. *)
Definition is_heading (U : unicode) (h : str) : Prop :=
  ci_word U (lit "references") h \/
  ci_word U (lit "bibliography") h \/
  ci_word U (lit "appendix") h.

(** None of the patterns of [clean] matches anywhere in [y]: no
    frontmatter block, no link, no citation, URL or doi record, no image,
    no caption line and no heading line. *)
Definition pattern_free (U : unicode) (y : str) : Prop :=
  re_search frontmatter_re y = None /\
  re_search link_re y = None /\
  re_search (noise_re U) y = None /\
  re_search image_re y = None /\
  re_search (caption_re U) y = None /\
  re_search (cutoff_re U) y = None.





(** Two runs on [text] are in the same embedding state: both in keyword
    mode, or both with a provider, the two giving the same scores (or
    both raising) on the clean text and its sentences.  A provider is in
    the same state as itself. *)
Definition same_embedding_state (U : unicode) (m1 m2 : option provider)
    (text : str) : Prop :=
  match m1, m2 with
  | None, None => True
  | Some p1, Some p2 =>
      embedding_scores p1 (clean U text) (segment (clean U text))
      = embedding_scores p2 (clean U text) (segment (clean U text))
  | _, _ => False
  end.

(** Descending order of the ranking: a higher score first, and among
    equal scores the greater sentence first. *)
Definition ranks_before (a b : Z * str) : Prop :=
  (fst b < fst a)%Z \/
  (fst a = fst b /\ str_ltb (snd a) (snd b) = false).

(** ** Text samples *)

Definition LF : string := String (ascii_of_nat 10) EmptyString.

Definition sample_two_blocks : str :=
  lit ("Intro line" ++ LF ++ "---" ++ LF ++ "kept: no" ++ LF ++ "---" ++ LF
       ++ "Middle" ++ LF ++ "---" ++ LF ++ "again" ++ LF ++ "---" ++ LF
       ++ "Outro").

Definition sample_caption : str := lit " Table 1 shows growth".

Definition sample_prose : str :=
  lit ("## Results: run 2" ++ LF ++ "The **mean** was 3 - 4 units.").

Definition sample_tags : str :=
  lit "Foxes jump over lazy dogs; foxes and dogs and foxes.".

Definition sentence_a : str := lit "alpha beta gamma delt".
Definition sentence_b : str := lit "omega psi chi phi ups".

Definition sample_pair : str :=
  lit "alpha beta gamma delt. omega psi chi phi ups.".

(** Two providers for the samples: a string is embedded as its length,
    kept as a double by the first and as an integer by the second. *)
Definition length_provider : provider := {|
  vec := float;
  encode := fun l =>
    Some (map (fun s => PrimFloat.of_uint63 (Uint63.of_Z (len s))) l);
  matmul := PrimFloat.mul
|}.

Definition length_provider_int : provider := {|
  vec := Z;
  encode := fun l => Some (map len l);
  matmul := fun u v => PrimFloat.of_uint63 (Uint63.of_Z (u * v))
|}.

(** * Properties *)

Unset Implicit Arguments.

(** ** The empty document *)

(** C2 (as stated, refuted): on the empty input the summary is the fixed
    message and no word is counted, but the compression is not "0.0%". *)
Lemma empty_document_compression_is_not_zero :
  summary (run_script ascii_tables seed0 []) = nothing_msg /\
  original_words (metrics_of (run_script ascii_tables seed0 [])) = 0%Z /\
  str_eqb (compression (metrics_of (run_script ascii_tables seed0 [])))
          (lit "0.0%") = false.
Proof. vm_compute. repeat split. Qed.

(** C2 (amended): on the empty input the summary is "Nothing to summarize
    after cleaning.", [original_words] is 0 and the compression, which is
    len(summary) / max(len(original), 1) printed as a percentage with one
    decimal, is 36 / 1, that is "3600.0%". *)
Theorem empty_document_report :
  forall (U : unicode) (set_iter : list str -> list str),
    let r := run_script U set_iter [] in
    summary r = nothing_msg /\
    original_words (metrics_of r) = 0%Z /\
    compression (metrics_of r)
      = format_percent1 (true_div (len (summary r)) (Z.max (len []) 1)) /\
    len (summary r) = 36%Z /\
    compression (metrics_of r) = lit "3600.0%".
Proof. intros U set_iter. vm_compute. repeat split. Qed.

(** ** Frontmatter *)

(** C3 (the code at the failing input): the frontmatter step also removes
    a block that does not open the document, and a second block after
    it. *)
Theorem frontmatter_removes_inner_blocks :
  remove_frontmatter sample_two_blocks
    = lit ("Intro line" ++ LF ++ LF ++ "Middle" ++ LF ++ LF ++ "Outro") /\
  is_prefix (lit "---") sample_two_blocks = false /\
  str_eqb (remove_frontmatter sample_two_blocks) sample_two_blocks = false.
Proof. vm_compute. repeat split. Qed.

(** ** The budgeted selector *)

Lemma len_app (a b : str) : len (a ++ b) = (len a + len b)%Z.
Proof. unfold len. rewrite length_app. lia. Qed.

Lemma len_nonneg (s : str) : (0 <= len s)%Z.
Proof. unfold len. lia. Qed.

Lemma total_len_nonneg (l : list str) : (0 <= total_len l)%Z.
Proof.
  induction l as [|s l IH]; simpl; [lia|].
  pose proof (len_nonneg s). lia.
Qed.

(** The running count never passes the budget. *)
Lemma take_budget_total (max_len : Z) :
  forall (ranked : list (Z * str)) used,
    (used <= max_len)%Z ->
    (used + total_len (take_budget ranked used max_len) <= max_len)%Z.
Proof.
  induction ranked as [|[sc s] ranked IH]; intros used Hused; simpl.
  - lia.
  - destruct (Z.leb_spec (used + len s) max_len) as [Hle|Hgt]; simpl.
    + specialize (IH (used + len s)%Z Hle). lia.
    + lia.
Qed.

Lemma take_budget_incl (max_len : Z) :
  forall (ranked : list (Z * str)) used s,
    In s (take_budget ranked used max_len) -> In s (map snd ranked).
Proof.
  induction ranked as [|[sc t] ranked IH]; intros used s; simpl.
  - tauto.
  - destruct (used + len t <=? max_len)%Z; simpl; [|tauto].
    intros [->|H]; [now left|right; eauto].
Qed.

Lemma len_join_space (l : list str) :
  l <> [] ->
  len (join (lit " ") l) = (total_len l + (Z.of_nat (length l) - 1))%Z.
Proof.
  induction l as [|s l IH]; [congruence|]. intros _.
  destruct l as [|t l].
  - simpl. lia.
  - change (join (lit " ") (s :: t :: l))
      with (s ++ lit " " ++ join (lit " ") (t :: l)).
    rewrite !len_app, IH by congruence.
    change (len (lit " ")) with 1%Z.
    change (total_len (s :: t :: l)) with (len s + total_len (t :: l))%Z.
    change (length (s :: t :: l)) with (S (length (t :: l))). lia.
Qed.

Lemma join_nonempty_list (sep : str) (l : list str) :
  join sep l <> [] -> l <> [].
Proof. destruct l; simpl; congruence. Qed.

Lemma select_budget_joined (ranked : list (Z * str)) text max_len :
  join (lit " ") (take_budget ranked 0 max_len) <> [] ->
  select_budget ranked text max_len
    = join (lit " ") (take_budget ranked 0 max_len).
Proof.
  unfold select_budget.
  destruct (join (lit " ") (take_budget ranked 0 max_len)); congruence.
Qed.

Lemma select_budget_fallback (ranked : list (Z * str)) text max_len :
  join (lit " ") (take_budget ranked 0 max_len) = [] ->
  select_budget ranked text max_len = slice_to text max_len ++ [ellipsis].
Proof. unfold select_budget. intros ->. reflexivity. Qed.

(** C1 (as stated, refuted): two sentences of 21 characters fit a budget
    of 42 by the running count, and their join has 43 characters; the
    same through [summarize]. *)
Lemma selector_output_exceeds_budget :
  select [(1%Z, sentence_a); (0%Z, sentence_b)] [] 42
    = join (lit " ") [sentence_a; sentence_b] /\
  len (select [(1%Z, sentence_a); (0%Z, sentence_b)] [] 42) = 43%Z /\
  len (summarize ascii_tables seed0 sample_pair 42) = 43%Z /\
  summarize ascii_tables seed0 sample_pair 42
    = join (lit " ") [sentence_a; sentence_b].
Proof. vm_compute. repeat split. Qed.

(** C1 (amended): for every budget B >= 0 and every sequence of (score,
    text) pairs, the lengths of the chosen sentences sum to at most B; the
    joining spaces are not counted, so a summary that is not the fallback
    has that sum plus one character per sentence after the first. *)
Theorem selector_budget :
  forall (scored : list (Z * str)) (text : str) (B : Z),
    (0 <= B)%Z ->
    let chosen := take_budget (sorted_desc pair_ltb scored) 0 B in
    (total_len chosen <= B)%Z /\
    (join (lit " ") chosen <> [] ->
       select scored text B = join (lit " ") chosen /\
       len (select scored text B)
         = (total_len chosen + (Z.of_nat (length chosen) - 1))%Z /\
       (len (select scored text B) <= B + (Z.of_nat (length chosen) - 1))%Z) /\
    (join (lit " ") chosen = [] ->
       select scored text B = slice_to text B ++ [ellipsis]).
Proof.
  intros scored text B HB chosen.
  assert (Htot : (total_len chosen <= B)%Z).
  { pose proof (@take_budget_total B (sorted_desc pair_ltb scored) 0%Z HB).
    subst chosen. lia. }
  split; [exact Htot|split].
  - intros Hne. unfold select.
    rewrite select_budget_joined by exact Hne.
    fold chosen. rewrite len_join_space by (eapply join_nonempty_list; eauto).
    repeat split; lia.
  - intros He. unfold select. now apply select_budget_fallback.
Qed.

(** The amended C1 at the two sentences above, budget 42. *)
Lemma selector_budget_witness :
  let chosen :=
    take_budget (sorted_desc pair_ltb
                   [(1%Z, sentence_a); (0%Z, sentence_b)]) 0 42 in
  (total_len chosen <= 42)%Z /\
  (join (lit " ") chosen <> [] ->
     select [(1%Z, sentence_a); (0%Z, sentence_b)] [] 42
       = join (lit " ") chosen /\
     len (select [(1%Z, sentence_a); (0%Z, sentence_b)] [] 42)
       = (total_len chosen + (Z.of_nat (length chosen) - 1))%Z /\
     (len (select [(1%Z, sentence_a); (0%Z, sentence_b)] [] 42)
        <= 42 + (Z.of_nat (length chosen) - 1))%Z) /\
  (join (lit " ") chosen = [] ->
     select [(1%Z, sentence_a); (0%Z, sentence_b)] [] 42
       = slice_to [] 42 ++ [ellipsis]).
Proof.
  apply (selector_budget [(1%Z, sentence_a); (0%Z, sentence_b)] [] 42).
  lia.
Defined.

(** ** Sorting *)

Section SortingFacts.
Variable T : Type.
Variable ltb : T -> T -> bool.

Lemma insert_desc_perm (x : T) (l : list T) :
  Permutation (insert_desc ltb x l) (x :: l).
Proof.
  induction l as [|y l IH]; simpl; [reflexivity|].
  destruct (ltb x y); [|reflexivity].
  rewrite IH. apply perm_swap.
Qed.

Lemma sorted_desc_perm (l : list T) : Permutation (sorted_desc ltb l) l.
Proof.
  induction l as [|x l IH]; simpl; [reflexivity|].
  rewrite insert_desc_perm. now constructor.
Qed.

Lemma sorted_desc_in (l : list T) (x : T) :
  In x (sorted_desc ltb l) <-> In x l.
Proof.
  split; apply Permutation_in;
    [apply sorted_desc_perm | symmetry; apply sorted_desc_perm].
Qed.

Lemma sorted_desc_nil (l : list T) : sorted_desc ltb l = [] -> l = [].
Proof.
  intros H. apply Permutation_nil. rewrite <- H.
  apply sorted_desc_perm.
Qed.
End SortingFacts.

(** ** What [summarize] returns *)

Lemma segment_long (text s : str) :
  In s (segment text) -> (20 < len s)%Z.
Proof.
  unfold segment. rewrite in_map_iff. intros (p & <- & Hin).
  apply filter_In in Hin. destruct Hin as [_ H]. now apply Z.ltb_lt.
Qed.

Lemma scored_snd U set_iter text sentences :
  map snd (scored U set_iter text sentences) = sentences.
Proof.
  unfold scored. rewrite map_map. simpl. apply map_id.
Qed.

Lemma ranked_in U set_iter text sentences s :
  In s (map snd (sorted_desc pair_ltb (scored U set_iter text sentences)))
  <-> In s sentences.
Proof.
  rewrite <- (scored_snd U set_iter text sentences) at 2.
  rewrite !in_map_iff. split; intros (x & Hx & Hin); exists x; split; auto;
    now apply sorted_desc_in in Hin || apply sorted_desc_in.
Qed.

Lemma join_head_nonempty (sep s : str) (l : list str) :
  s <> [] -> join sep (s :: l) <> [].
Proof.
  intros Hs. destruct l; simpl; [exact Hs|].
  destruct s; [congruence|discriminate].
Qed.

Lemma long_nonempty (s : str) : (20 < len s)%Z -> s <> [].
Proof. intros H ->. unfold len in H. simpl in H. lia. Qed.

Lemma nothing_msg_nonempty : nothing_msg <> [].
Proof. discriminate. Qed.

Lemma app_ellipsis_nonempty (p : str) : p ++ [ellipsis] <> [].
Proof. destruct p; discriminate. Qed.

Lemma slice_to_nonneg (s : str) (n : Z) :
  (0 <= n)%Z -> slice_to s n = firstn (Z.to_nat n) s.
Proof.
  intros H. unfold slice_to.
  destruct (Z.leb_spec 0 n); [reflexivity|lia].
Qed.

(** The three shapes of the value returned by lines 56-63, for a ranking
    whose sentences are all longer than 20 characters. *)
Lemma select_budget_shape (ranked : list (Z * str)) text max_len :
  (forall s, In s (map snd ranked) -> (20 < len s)%Z) ->
  let chosen := take_budget ranked 0 max_len in
  (chosen <> [] /\ select_budget ranked text max_len = join (lit " ") chosen)
  \/ (chosen = [] /\
      select_budget ranked text max_len = slice_to text max_len ++ [ellipsis]).
Proof.
  intros Hlong chosen.
  destruct chosen as [|s l] eqn:E.
  - right. split; [reflexivity|].
    apply select_budget_fallback. subst chosen. now rewrite E.
  - left. split; [discriminate|].
    subst chosen. rewrite <- E. apply select_budget_joined. rewrite E.
    apply join_head_nonempty, long_nonempty, Hlong.
    eapply take_budget_incl. rewrite E. now left.
Qed.

Lemma take_budget_small (ranked : list (Z * str)) max_len :
  (forall s, In s (map snd ranked) -> (max_len < len s)%Z) ->
  take_budget ranked 0 max_len = [].
Proof.
  destruct ranked as [|[sc s] ranked]; [reflexivity|].
  intros H. specialize (H s (or_introl eq_refl)).
  cbn [take_budget].
  destruct (Z.leb_spec (0 + len s) max_len); [lia|reflexivity].
Qed.

(** C10: for every input and every budget, [summarize] returns a
    non-empty string: the fixed message, or a join of chosen sentences
    each longer than 20 characters, or the fallback prefix ended by the
    ellipsis character. *)
Theorem summarize_nonempty :
  forall (U : unicode) (set_iter : list str -> list str)
         (text : str) (max_len : Z),
    let out := summarize U set_iter text max_len in
    out <> [] /\
    (out = nothing_msg
     \/ (exists chosen,
           chosen <> [] /\
           Forall (fun s => (20 < len s)%Z /\ In s (segment (clean U text)))
                  chosen /\
           out = join (lit " ") chosen)
     \/ (exists prefix,
           prefix = slice_to (clean U text) max_len /\
           out = prefix ++ [ellipsis])).
Proof.
  intros U set_iter text max_len out.
  assert (Hshape :
    out = nothing_msg
    \/ (exists chosen,
          chosen <> [] /\
          Forall (fun s => (20 < len s)%Z /\ In s (segment (clean U text)))
                 chosen /\
          out = join (lit " ") chosen)
    \/ (exists prefix,
          prefix = slice_to (clean U text) max_len /\
          out = prefix ++ [ellipsis])).
  { subst out. unfold summarize.
    destruct (segment (clean U text)) as [|s0 l0] eqn:Eseg; [now left|].
    right. rewrite <- Eseg.
    set (ranked := sorted_desc pair_ltb _).
    assert (Hin : forall s, In s (map snd ranked) ->
                            In s (segment (clean U text))).
    { intros s Hs. subst ranked. now apply ranked_in in Hs. }
    destruct (select_budget_shape ranked (clean U text) max_len)
      as [[Hne Heq]|[_ Heq]].
    - intros s Hs. eapply segment_long, Hin, Hs.
    - left. exists (take_budget ranked 0 max_len). repeat split; auto.
      apply Forall_forall. intros s Hs.
      apply take_budget_incl in Hs. split; [eapply segment_long|]; eauto.
    - right. eexists. split; [reflexivity|exact Heq]. }
  split; [|exact Hshape].
  destruct Hshape as [->|[(chosen & Hne & Hall & ->)|(p & _ & ->)]].
  - apply nothing_msg_nonempty.
  - destruct chosen as [|s l]; [congruence|].
    apply join_head_nonempty, long_nonempty.
    now inversion Hall as [|? ? [H _] _].
  - apply app_ellipsis_nonempty.
Qed.

(** C6: when the segmentation is empty the summarizer returns the fixed
    message; when there are sentences and the walk chooses none (as with
    a budget of 0, or one below every sentence), it returns the first
    [max_len] characters of the clean text followed by the ellipsis, which
    is not the empty string. *)
Theorem summarize_edge_cases :
  forall (U : unicode) (set_iter : list str -> list str)
         (text : str) (max_len : Z),
    let ctext := clean U text in
    let sentences := segment ctext in
    let ranked := sorted_desc pair_ltb (scored U set_iter ctext sentences) in
    (sentences = [] -> summarize U set_iter text max_len = nothing_msg) /\
    (sentences <> [] -> take_budget ranked 0 max_len = [] ->
       summarize U set_iter text max_len
         = slice_to ctext max_len ++ [ellipsis] /\
       summarize U set_iter text max_len <> [] /\
       ((0 <= max_len)%Z ->
          slice_to ctext max_len = firstn (Z.to_nat max_len) ctext)) /\
    ((forall s, In s sentences -> (max_len < len s)%Z) ->
       take_budget ranked 0 max_len = []) /\
    ((max_len <= 20)%Z -> take_budget ranked 0 max_len = []).
Proof.
  intros U set_iter text max_len ctext sentences ranked.
  assert (Hsmall : (forall s, In s sentences -> (max_len < len s)%Z) ->
                   take_budget ranked 0 max_len = []).
  { intros H. apply take_budget_small. intros s Hs. apply H.
    subst ranked. now apply ranked_in in Hs. }
  assert (Hfall : sentences <> [] -> take_budget ranked 0 max_len = [] ->
                  summarize U set_iter text max_len
                    = slice_to ctext max_len ++ [ellipsis]).
  { intros Hne Hnone. unfold summarize. fold ctext. fold sentences.
    destruct sentences as [|s0 l0] eqn:E; [congruence|].
    apply select_budget_fallback. unfold ranked in Hnone. now rewrite Hnone. }
  split; [|split; [|split]].
  - intros He. unfold summarize. fold ctext. fold sentences. now rewrite He.
  - intros Hne Hnone. split; [|split].
    + now apply Hfall.
    + rewrite Hfall by assumption. apply app_ellipsis_nonempty.
    + apply slice_to_nonneg.
  - exact Hsmall.
  - intros Hle. apply Hsmall. intros s Hs.
    apply segment_long in Hs. lia.
Qed.

(** ** Matching one repeated class *)

Lemma span_len_le p s : (span_len p s <= length s)%nat.
Proof. induction s as [|c s IH]; simpl; [lia|]. destruct (p c); simpl; lia. Qed.

Lemma span_len_firstn p s : forallb p (firstn (span_len p s) s) = true.
Proof.
  induction s as [|c s IH]; simpl; [reflexivity|].
  destruct (p c) eqn:E; simpl; [now rewrite E, IH|reflexivity].
Qed.

Lemma span_len_skipn p s c s' :
  skipn (span_len p s) s = c :: s' -> p c = false.
Proof.
  induction s as [|d s IH]; simpl; [discriminate|].
  destruct (p d) eqn:E; simpl; [exact IH|].
  intros H. injection H as -> _. exact E.
Qed.

(** A greedy [p{min,}] with nothing after it takes the whole run. *)
Lemma rep_greedy_accept p :
  forall s min pv n cp,
    rep_greedy p min pv n s cp (fun st => Some (pos st, cap st))
    = if (min <=? span_len p s)%nat then Some (n + span_len p s, cp)%nat
      else None.
Proof.
  induction s as [|c s IH]; intros min pv n cp; simpl.
  - destruct min; simpl; [now rewrite Nat.add_0_r|reflexivity].
  - destruct (p c) eqn:E.
    + rewrite IH. destruct min as [|m]; simpl.
      * now rewrite Nat.add_succ_r.
      * destruct (m <=? span_len p s)%nat; [now rewrite Nat.add_succ_r|].
        reflexivity.
    + destruct min; simpl; [now rewrite Nat.add_0_r|reflexivity].
Qed.

Lemma match_at_plus p pv s :
  match_at (Rep true 1 p) pv s
  = match span_len p s with
    | O => None
    | S n => Some (S n, [])
    end.
Proof.
  unfold match_at. simpl. rewrite rep_greedy_accept.
  destruct (span_len p s); reflexivity.
Qed.

(** ** Splitting on runs of a class *)

Lemma split_from_skip r :
  forall s n pv acc,
    (n <= length s)%nat ->
    exists pv', split_from r n pv s acc = split_from r 0 pv' (skipn n s) acc.
Proof.
  induction s as [|c s IH]; intros n pv acc Hn.
  - simpl in Hn. assert (n = 0)%nat as -> by lia. now exists pv.
  - destruct n as [|n]; [now exists pv|].
    simpl in Hn. cbn [split_from skipn]. apply IH. lia.
Qed.

Lemma split_plus_pv p s pv pv' acc :
  split_from (Rep true 1 p) 0 pv s acc
  = split_from (Rep true 1 p) 0 pv' s acc.
Proof. destruct s; cbn [split_from]; [|rewrite !match_at_plus]; reflexivity. Qed.

Lemma interleave_cons_head c p0 ps seps :
  interleave ((c :: p0) :: ps) seps = c :: interleave (p0 :: ps) seps.
Proof. destruct seps; reflexivity. Qed.

Lemma split_plus_spec p :
  forall m s, (length s <= m)%nat -> forall pv acc,
    exists p0 ps seps,
      split_from (Rep true 1 p) 0 pv s acc = (rev acc ++ p0) :: ps /\
      length seps = length ps /\
      s = interleave (p0 :: ps) seps /\
      forallb (fun c => negb (p c)) p0 = true /\
      Forall (fun x => forallb (fun c => negb (p c)) x = true) ps /\
      Forall (fun sp => sp <> [] /\ forallb p sp = true) seps /\
      inner_nonempty ps /\
      (p0 = [] -> span_len p s = 0%nat -> ps = []).
Proof.
  induction m as [|m IH]; intros s Hm pv acc.
  - destruct s; [|simpl in Hm; lia].
    exists [], [], []. cbn. rewrite app_nil_r. repeat split; auto.
  - destruct s as [|c s].
    { exists [], [], []. cbn. rewrite app_nil_r. repeat split; auto. }
    simpl in Hm. cbn [split_from]. rewrite match_at_plus.
    cbn [span_len]. destruct (p c) eqn:Ec.
    + (* a separator starts here *)
      set (n := span_len p s).
      destruct (split_from_skip (Rep true 1 p) s n (Some c) [])
        as [pv' Hskip]; [apply span_len_le|].
      rewrite Hskip.
      destruct (IH (skipn n s)) with (pv := pv') (acc := @nil char)
        as (p0' & ps' & seps' & Hout & Hlen & Hs & Hp0 & Hps & Hseps & Hin & Hz).
      { rewrite length_skipn. lia. }
      exists [], (p0' :: ps'), ((c :: firstn n s) :: seps').
      rewrite Hout, app_nil_r. cbn [rev app length].
      repeat split; auto.
      * change (c :: s = c :: firstn n s ++ interleave (p0' :: ps') seps').
        f_equal. rewrite <- Hs. symmetry. apply firstn_skipn.
      * constructor; [split; [discriminate|]|exact Hseps].
        cbn [forallb]. rewrite Ec. apply span_len_firstn.
      * cbn [inner_nonempty]. destruct ps' as [|q ps']; [exact I|].
        split; [|exact Hin]. intros ->.
        assert (Hnil : q :: ps' = []); [|discriminate].
        apply Hz; [reflexivity|].
        destruct (skipn n s) as [|d t] eqn:Esk; [reflexivity|].
        cbn [span_len]. now rewrite (span_len_skipn p s d t Esk).
      * discriminate.
    + (* an ordinary character *)
      destruct (IH s) with (pv := Some c) (acc := c :: acc)
        as (p0' & ps & seps & Hout & Hlen & Hs & Hp0 & Hps & Hseps & Hin & Hz).
      { lia. }
      exists (c :: p0'), ps, seps. rewrite Hout.
      cbn [rev]. rewrite <- app_assoc. cbn [app].
      repeat split; auto.
      * rewrite interleave_cons_head. now f_equal.
      * cbn [forallb]. now rewrite Ec.
      * discriminate.
Qed.

(** ** Trimming *)

Lemma lstrip_spec s :
  exists a, s = a ++ lstrip s /\ forallb is_space a = true /\
            (forall c t, lstrip s = c :: t -> is_space c = false).
Proof.
  induction s as [|c s (a & Hs & Ha & Hh)]; simpl.
  - exists []. repeat split; auto. discriminate.
  - destruct (is_space c) eqn:E.
    + exists (c :: a). simpl. rewrite E, Ha. repeat split; auto.
      now f_equal.
    + exists []. repeat split; auto. intros d t H. now injection H as <- _.
Qed.

Lemma forallb_rev (p : char -> bool) (l : str) :
  forallb p (rev l) = forallb p l.
Proof.
  induction l as [|c l IH]; simpl; [reflexivity|].
  rewrite forallb_app, IH. simpl. rewrite andb_true_r. apply andb_comm.
Qed.

Lemma strip_trimmed (s : str) : trimmed_of s (strip s).
Proof.
  unfold trimmed_of, strip, rstrip.
  destruct (lstrip_spec s) as (a & Hs & Ha & Hh).
  destruct (lstrip_spec (rev (lstrip s))) as (b & Hr & Hb & Hl).
  set (y := lstrip s) in *. set (t := lstrip (rev y)) in *.
  assert (Hy : y = rev t ++ rev b).
  { rewrite <- rev_app_distr, <- Hr. symmetry. apply rev_involutive. }
  exists a, (rev b). repeat split.
  - rewrite <- Hy. exact Hs.
  - exact Ha.
  - now rewrite forallb_rev.
  - intros c t' Ht. rewrite Ht in Hy. simpl in Hy. eapply Hh. exact Hy.
  - intros c t' Ht. apply (Hl c (rev t')).
    rewrite <- (rev_involutive t), Ht, rev_app_distr. reflexivity.
Qed.

Lemma map_filter_comm (A B : Type) (f : A -> B) (g : B -> bool) l :
  map f (filter (fun x => g (f x)) l) = filter g (map f l).
Proof.
  induction l as [|x l IH]; simpl; [reflexivity|].
  destruct (g (f x)); simpl; now rewrite IH.
Qed.

(** C9: the segmenter splits the text at the runs of '.', '!' and '?'
    (the pieces hold none of them, the separators only them, and a piece
    between two separators is not empty), trims each piece and keeps, in
    the order of the text, those whose trimmed length exceeds 20; the
    empty text gives the empty sequence. *)
Theorem segmenter_spec :
  forall text : str,
    let pieces := re_split punct_re text in
    (exists seps,
       length pieces = S (length seps) /\
       Forall punct_run seps /\
       text = interleave pieces seps) /\
    Forall no_punct pieces /\
    inner_nonempty (tl pieces) /\
    segment text = filter (fun t => (20 <? len t)%Z) (map strip pieces) /\
    (forall p, trimmed_of p (strip p)) /\
    segment [] = [].
Proof.
  intros text pieces.
  destruct (split_plus_spec is_punct (length text) text (le_n _) None [])
    as (p0 & ps & seps & Hout & Hlen & Hs & Hp0 & Hps & Hseps & Hin & _).
  assert (Hpieces : pieces = p0 :: ps) by exact Hout.
  rewrite Hpieces. split; [|split; [|split; [|split; [|split]]]].
  - exists seps. split; [simpl; f_equal; symmetry; exact Hlen|].
    split; [exact Hseps|exact Hs].
  - constructor; assumption.
  - exact Hin.
  - unfold segment. rewrite <- Hpieces.
    apply (map_filter_comm _ _ strip (fun t => (20 <? len t)%Z)).
  - apply strip_trimmed.
  - reflexivity.
Qed.

(** ** The order on scored sentences *)

Lemma str_ltb_asym : forall a b, str_ltb a b = true -> str_ltb b a = false.
Proof.
  induction a as [|x a IH]; intros [|y b]; simpl; try congruence.
  destruct (N.ltb_spec x y), (N.ltb_spec y x); try congruence; try lia.
  apply IH.
Qed.

Lemma str_ltb_antisym :
  forall a b, str_ltb a b = false -> str_ltb b a = false -> a = b.
Proof.
  induction a as [|x a IH]; intros [|y b]; simpl; try congruence.
  destruct (N.ltb_spec x y), (N.ltb_spec y x); try congruence.
  intros H1 H2. assert (x = y) by lia. subst. f_equal. now apply IH.
Qed.

Lemma str_geb_trans :
  forall a b c, str_ltb a b = false -> str_ltb b c = false ->
                str_ltb a c = false.
Proof.
  induction a as [|x a IH]; intros [|y b] [|z c]; simpl; try congruence.
  destruct (N.ltb_spec x y), (N.ltb_spec y x), (N.ltb_spec y z),
    (N.ltb_spec z y), (N.ltb_spec x z), (N.ltb_spec z x);
    try congruence; try lia.
  apply IH.
Qed.

Lemma pair_ltb_asym a b : pair_ltb a b = true -> pair_ltb b a = false.
Proof.
  unfold pair_ltb. destruct a as [m s], b as [n t]. simpl.
  destruct (Z.eqb_spec m n), (Z.eqb_spec n m); try congruence.
  - apply str_ltb_asym.
  - intros H. apply Z.ltb_lt in H. apply Z.ltb_ge. lia.
Qed.

Lemma pair_ltb_antisym a b :
  pair_ltb a b = false -> pair_ltb b a = false -> a = b.
Proof.
  unfold pair_ltb. destruct a as [m s], b as [n t]. simpl.
  destruct (Z.eqb_spec m n), (Z.eqb_spec n m); try congruence.
  - intros H1 H2. subst. f_equal. now apply str_ltb_antisym.
  - intros H1 H2. apply Z.ltb_ge in H1, H2. lia.
Qed.

Lemma pair_geb_trans a b c :
  pair_ltb a b = false -> pair_ltb b c = false -> pair_ltb a c = false.
Proof.
  unfold pair_ltb. destruct a as [m s], b as [n t], c as [o u]. simpl.
  destruct (Z.eqb_spec m n), (Z.eqb_spec n o), (Z.eqb_spec m o);
    try congruence; try lia; intros H1 H2;
    try (apply Z.ltb_ge in H1); try (apply Z.ltb_ge in H2);
    try (apply Z.ltb_ge); try lia.
  eapply str_geb_trans; eauto.
Qed.

Section SortedFacts.
Variable T : Type.
Variable ltb : T -> T -> bool.
Hypothesis ltb_asym : forall a b, ltb a b = true -> ltb b a = false.
Hypothesis geb_trans :
  forall a b c, ltb a b = false -> ltb b c = false -> ltb a c = false.

Lemma insert_desc_sorted x l :
  StronglySorted (geb ltb) l -> StronglySorted (geb ltb) (insert_desc ltb x l).
Proof.
  induction 1 as [|y l Hs IH Hy]; simpl.
  - repeat constructor.
  - destruct (ltb x y) eqn:E.
    + constructor; [exact IH|].
      apply Forall_forall. intros z Hz.
      apply (Permutation_in _ (insert_desc_perm T ltb x l)) in Hz.
      destruct Hz as [<-|Hz]; [now apply ltb_asym|].
      rewrite Forall_forall in Hy. now apply Hy.
    + constructor; [now constructor|].
      constructor; [exact E|].
      apply Forall_forall. intros z Hz.
      rewrite Forall_forall in Hy. eapply geb_trans; [exact E|now apply Hy].
Qed.

Lemma sorted_desc_sorted l : StronglySorted (geb ltb) (sorted_desc ltb l).
Proof.
  induction l as [|x l IH]; simpl; [constructor|].
  now apply insert_desc_sorted.
Qed.

Hypothesis ltb_antisym :
  forall a b, ltb a b = false -> ltb b a = false -> a = b.

Lemma sorted_perm_unique l1 :
  forall l2, StronglySorted (geb ltb) l1 -> StronglySorted (geb ltb) l2 ->
             Permutation l1 l2 -> l1 = l2.
Proof.
  induction l1 as [|x l1 IH]; intros l2 H1 H2 Hp.
  - now apply Permutation_nil in Hp.
  - destruct l2 as [|y l2].
    { symmetry in Hp. now apply Permutation_nil in Hp. }
    inversion H1 as [|? ? Hs1 Hx]; inversion H2 as [|? ? Hs2 Hy]; subst.
    rewrite Forall_forall in Hx, Hy.
    assert (x = y).
    { assert (Hyin : In y (x :: l1))
        by (eapply Permutation_in; [symmetry; exact Hp|now left]).
      assert (Hxin : In x (y :: l2))
        by (eapply Permutation_in; [exact Hp|now left]).
      destruct Hyin as [->|Hyin]; [reflexivity|].
      destruct Hxin as [->|Hxin]; [reflexivity|].
      apply ltb_antisym; [now apply Hx|now apply Hy]. }
    subst y. f_equal. apply IH; auto.
    now apply Permutation_cons_inv in Hp.
Qed.

Lemma sorted_desc_perm_eq l1 l2 :
  Permutation l1 l2 -> sorted_desc ltb l1 = sorted_desc ltb l2.
Proof.
  intros Hp. apply sorted_perm_unique; try apply sorted_desc_sorted.
  rewrite !sorted_desc_perm. exact Hp.
Qed.
End SortedFacts.

(** ** Determinism *)

Lemma score_perm U (c1 c2 : list str) (s : str) :
  Permutation c1 c2 -> score U c1 s = score U c2 s.
Proof.
  unfold score.
  induction 1 as [|w l l' _ IH|v w l|l l' l'' _ IH1 _ IH2]; cbn [fold_right].
  - reflexivity.
  - now rewrite IH.
  - lia.
  - now rewrite IH1.
Qed.

Lemma common_set_perm U iter1 iter2 text :
  (forall l, Permutation (iter1 l) l) ->
  (forall l, Permutation (iter2 l) l) ->
  Permutation (common_set U iter1 text) (common_set U iter2 text).
Proof.
  intros H1 H2. unfold common_set, set_of.
  rewrite H1, H2. reflexivity.
Qed.

Lemma scored_iter U iter1 iter2 text sentences :
  (forall l, Permutation (iter1 l) l) ->
  (forall l, Permutation (iter2 l) l) ->
  scored U iter1 text sentences = scored U iter2 text sentences.
Proof.
  intros H1 H2. unfold scored. apply map_ext. intros s. f_equal.
  apply score_perm. now apply common_set_perm.
Qed.

Lemma summarize_iter U iter1 iter2 text max_len :
  (forall l, Permutation (iter1 l) l) ->
  (forall l, Permutation (iter2 l) l) ->
  summarize U iter1 text max_len = summarize U iter2 text max_len.
Proof.
  intros H1 H2. unfold summarize.
  now rewrite (scored_iter U iter1 iter2 _ _ H1 H2).
Qed.

Lemma summarize_with_keyword U set_iter text max_len :
  summarize_with U set_iter None text max_len
  = Some (summarize U set_iter text max_len).
Proof.
  unfold summarize_with, summarize.
  destruct (segment (clean U text)); reflexivity.
Qed.

Lemma run_script_with_keyword U set_iter text :
  run_script_with U set_iter None text = Some (run_script U set_iter text).
Proof.
  unfold run_script_with. rewrite summarize_with_keyword. reflexivity.
Qed.

Lemma same_embedding_state_refl U model text :
  same_embedding_state U model model text.
Proof. destruct model; cbn; reflexivity. Qed.

Lemma summarize_with_same U iter1 iter2 model1 model2 text max_len :
  (forall l, Permutation (iter1 l) l) ->
  (forall l, Permutation (iter2 l) l) ->
  same_embedding_state U model1 model2 text ->
  summarize_with U iter1 model1 text max_len
  = summarize_with U iter2 model2 text max_len.
Proof.
  intros H1 H2 Hstate.
  destruct model1 as [p1|], model2 as [p2|]; cbn in Hstate;
    try contradiction.
  - unfold summarize_with. cbv zeta. rewrite Hstate. reflexivity.
  - rewrite !summarize_with_keyword. f_equal. now apply summarize_iter.
Qed.

(** C7: two runs on the same text in the same embedding state give the
    same summary, tags and metrics, or stop on the same exception of the
    provider, whatever order each run's hash seed gives to the set of
    common words.  The same state is: both runs in keyword mode, or both
    with a provider, the two giving the same scores on the document; a
    provider is in the same state as itself.  The keyword mode is the
    run without provider.  The descending sort of the keyword mode
    depends only on which scored sentences it is given, not on their
    order, and in both modes equal scores are ordered by the sentences
    themselves (here against input order). *)
Theorem pipeline_deterministic :
  forall (U : unicode) (iter1 iter2 : list str -> list str)
         (model1 model2 : option provider) (text : str),
    (forall l, Permutation (iter1 l) l) ->
    (forall l, Permutation (iter2 l) l) ->
    same_embedding_state U model1 model2 text ->
    run_script_with U iter1 model1 text
      = run_script_with U iter2 model2 text /\
    (forall max_len,
       summarize_with U iter1 model1 text max_len
         = summarize_with U iter2 model2 text max_len) /\
    (forall model, same_embedding_state U model model text) /\
    run_script_with U iter1 None text = Some (run_script U iter1 text) /\
    run_script U iter1 text = run_script U iter2 text /\
    (forall max_len,
       summarize U iter1 text max_len = summarize U iter2 text max_len) /\
    (forall l1 l2 : list (Z * str),
       Permutation l1 l2 ->
       sorted_desc pair_ltb l1 = sorted_desc pair_ltb l2) /\
    sorted_desc pair_ltb [(1%Z, lit "a"); (1%Z, lit "b")]
      = [(1%Z, lit "b"); (1%Z, lit "a")] /\
    sorted_desc fpair_ltb [(0.5%float, lit "a"); (0.5%float, lit "b")]
      = [(0.5%float, lit "b"); (0.5%float, lit "a")].
Proof.
  intros U iter1 iter2 model1 model2 text H1 H2 Hstate.
  split; [|split; [|split; [|split; [|split; [|split; [|split; [|split]]]]]]].
  - unfold run_script_with.
    now rewrite (summarize_with_same U iter1 iter2 _ _ text 450 H1 H2 Hstate).
  - intros max_len. now apply summarize_with_same.
  - intros model. apply same_embedding_state_refl.
  - apply run_script_with_keyword.
  - unfold run_script.
    now rewrite (summarize_iter U iter1 iter2 text 450 H1 H2).
  - intros max_len. now apply summarize_iter.
  - intros l1 l2. apply sorted_desc_perm_eq.
    + exact pair_ltb_asym.
    + exact pair_geb_trans.
    + exact pair_ltb_antisym.
  - reflexivity.
  - vm_compute. reflexivity.
Qed.

(** C7 at a two-sentence text, for the insertion order and its reverse,
    with two providers that give the same scores. *)
Lemma pipeline_deterministic_witness :
  same_embedding_state ascii_tables (Some length_provider)
    (Some length_provider_int) sample_pair /\
  run_script_with ascii_tables seed0 (Some length_provider) sample_pair
    = run_script_with ascii_tables (@rev str) (Some length_provider_int)
        sample_pair.
Proof.
  assert (Hstate : same_embedding_state ascii_tables (Some length_provider)
                     (Some length_provider_int) sample_pair)
    by (vm_compute; reflexivity).
  split; [exact Hstate|].
  apply (pipeline_deterministic ascii_tables seed0 (@rev str)
           (Some length_provider) (Some length_provider_int) sample_pair).
  - intros l. reflexivity.
  - intros l. symmetry. apply Permutation_rev.
  - exact Hstate.
Defined.

(** ** Counters *)

Lemma str_eqb_eq a : forall b, str_eqb a b = true <-> a = b.
Proof.
  induction a as [|x a IH]; intros [|y b]; simpl;
    try (split; congruence).
  rewrite andb_true_iff, IH. unfold ceq. rewrite N.eqb_eq.
  split; [intros [-> ->]; reflexivity|intros H; injection H; auto].
Qed.

Lemma str_eqb_refl a : str_eqb a a = true.
Proof. now apply str_eqb_eq. Qed.

Lemma str_eqb_neq a b : str_eqb a b = false <-> a <> b.
Proof.
  rewrite <- (str_eqb_eq a b). destruct (str_eqb a b); split; congruence.
Qed.

Lemma str_eqb_sym a b : str_eqb a b = str_eqb b a.
Proof.
  destruct (str_eqb a b) eqn:E1, (str_eqb b a) eqn:E2; auto.
  - apply str_eqb_eq in E1. subst. now rewrite str_eqb_refl in E2.
  - apply str_eqb_eq in E2. subst. now rewrite str_eqb_refl in E1.
Qed.

Lemma mem_In w l : mem w l = true <-> In w l.
Proof.
  unfold mem. rewrite existsb_exists. split.
  - intros (x & Hin & He). apply str_eqb_eq in He. now subst.
  - intros H. exists w. split; [exact H|apply str_eqb_refl].
Qed.

Lemma mem_not_In w l : mem w l = false <-> ~ In w l.
Proof. rewrite <- mem_In. destruct (mem w l); split; congruence. Qed.

Lemma first_occ_snoc l w : first_occ (l ++ [w]) = keys_add (first_occ l) w.
Proof. unfold first_occ. now rewrite fold_left_app. Qed.

Lemma Counter_snoc l w : Counter (l ++ [w]) = counter_incr w (Counter l).
Proof. unfold Counter. now rewrite fold_left_app. Qed.

Lemma first_occ_in l : forall w, In w (first_occ l) <-> In w l.
Proof.
  induction l as [|x l IH] using rev_ind; intros w; [reflexivity|].
  rewrite first_occ_snoc, in_app_iff. unfold keys_add.
  destruct (mem x (first_occ l)) eqn:E.
  - apply mem_In in E. rewrite IH in *. simpl. intuition (subst; auto).
  - rewrite in_app_iff, IH. reflexivity.
Qed.

Lemma first_occ_nodup l : NoDup (first_occ l).
Proof.
  induction l as [|x l IH] using rev_ind; [constructor|].
  rewrite first_occ_snoc. unfold keys_add.
  destruct (mem x (first_occ l)) eqn:E; [exact IH|].
  apply mem_not_In in E.
  apply NoDup_rev in IH. rewrite <- (rev_involutive (first_occ l ++ [x])).
  apply NoDup_rev. rewrite rev_app_distr. simpl.
  constructor; [now rewrite <- in_rev|exact IH].
Qed.

Lemma occurrences_snoc k l w :
  occurrences k (l ++ [w])
  = (occurrences k l + (if str_eqb k w then 1 else 0))%Z.
Proof.
  unfold occurrences. rewrite count_occ_app. simpl.
  destruct (str_eq_dec w k) as [->|Hne].
  - rewrite str_eqb_refl. lia.
  - assert (str_eqb k w = false) as -> by (apply str_eqb_neq; congruence).
    lia.
Qed.

Lemma occurrences_pos k l : In k l <-> (0 < occurrences k l)%Z.
Proof.
  unfold occurrences. rewrite (count_occ_In str_eq_dec). lia.
Qed.

Lemma counter_incr_map w (f g : str -> Z) :
  (forall k, g k = (f k + (if str_eqb k w then 1 else 0))%Z) ->
  forall ks, NoDup ks ->
    counter_incr w (map (fun k => (k, f k)) ks)
    = map (fun k => (k, g k)) ks ++ (if mem w ks then [] else [(w, 1%Z)]).
Proof.
  intros Hg. induction ks as [|k ks IH]; intros Hnd; [reflexivity|].
  inversion Hnd as [|? ? Hk Hnd']; subst.
  cbn [map counter_incr mem existsb]. fold (mem w ks).
  rewrite (str_eqb_sym w k).
  destruct (str_eqb k w) eqn:E.
  - cbn [orb app]. rewrite app_nil_r. apply str_eqb_eq in E. subst k.
    rewrite Hg, str_eqb_refl. f_equal.
    apply map_ext_in. intros k Hin. rewrite Hg.
    assert (str_eqb k w = false) as -> by (apply str_eqb_neq; congruence).
    f_equal. lia.
  - cbn [orb app]. rewrite IH by exact Hnd'.
    rewrite Hg, E. do 2 f_equal. lia.
Qed.

(** A counter lists each distinct word once, in the order of first
    occurrence, with its number of occurrences. *)
Lemma Counter_spec l :
  Counter l = map (fun k => (k, occurrences k l)) (first_occ l).
Proof.
  induction l as [|w l IH] using rev_ind; [reflexivity|].
  rewrite Counter_snoc, IH, first_occ_snoc.
  rewrite (counter_incr_map w (fun k => occurrences k l)
             (fun k => occurrences k (l ++ [w])))
    by (auto using occurrences_snoc, first_occ_nodup).
  unfold keys_add. destruct (mem w (first_occ l)) eqn:E.
  - now rewrite app_nil_r.
  - rewrite map_app. cbn [map]. do 3 f_equal.
    rewrite occurrences_snoc, str_eqb_refl.
    apply mem_not_In in E. rewrite first_occ_in in E.
    unfold occurrences. rewrite (count_occ_not_In str_eq_dec) in E.
    rewrite E. reflexivity.
Qed.

Lemma Counter_keys l : map fst (Counter l) = first_occ l.
Proof. rewrite Counter_spec, map_map. apply map_id. Qed.


(** ** Order of first occurrence *)






(** ** Stability of the descending sort *)

Section Stability.
Variable T : Type.
Variable ltb : T -> T -> bool.
Hypothesis ltb_asym : forall a b, ltb a b = true -> ltb b a = false.
Hypothesis geb_trans :
  forall a b c, ltb a b = false -> ltb b c = false -> ltb a c = false.


Lemma sorted_weaken (R R' : T -> T -> Prop) l :
  (forall a b, R a b -> R' a b) ->
  StronglySorted R l -> StronglySorted R' l.
Proof.
  intros Himp. induction 1 as [|x l Hs IH Hall]; constructor; auto.
  eapply Forall_impl; [|exact Hall]. auto.
Qed.





End Stability.



(** ** [most_common] *)


Lemma nodup_firstn (A : Type) (n : nat) (l : list A) :
  NoDup l -> NoDup (firstn n l).
Proof.
  intros H. rewrite <- (firstn_skipn n l) in H.
  now apply NoDup_app_remove_r in H.
Qed.

Lemma most_common_length n cs :
  (length (most_common n cs) <= Z.to_nat n)%nat.
Proof. unfold most_common. rewrite length_firstn. lia. Qed.


Lemma most_common_nodup n l :
  NoDup (map fst (most_common n (Counter l))).
Proof.
  unfold most_common. rewrite <- firstn_map. apply nodup_firstn.
  eapply Permutation_NoDup.
  - apply Permutation_map. symmetry. apply sorted_desc_perm.
  - rewrite Counter_keys. apply first_occ_nodup.
Qed.



(** ** Tokens *)


(** ** The ranking of words by frequency *)










(** ** The tag extractor *)







(** ** The keyword strategy *)



Lemma score_count U common s :
  score U common s
  = Z.of_nat (length (filter
      (fun w => contains (u_lower U s) (firstn 5 w)) common)).
Proof.
  unfold score. induction common as [|w common IH]; [reflexivity|].
  cbn [fold_right filter]. rewrite IH.
  destruct (contains (u_lower U s) (firstn 5 w)); cbn [b2z length]; lia.
Qed.

Lemma common_set_perm_top U set_iter text :
  (forall l, Permutation (set_iter l) l) ->
  Permutation (common_set U set_iter text)
    (filter (fun w => (4 <? len w)%Z)
       (map fst (most_common 20
          (Counter (re_findall (word_re U) (u_lower U text)))))).
Proof.
  intros Hperm. unfold common_set, set_of. rewrite Hperm.
  rewrite (map_filter_comm _ _ fst (fun w => (4 <? len w)%Z)).
  rewrite nodup_fixed_point; [reflexivity|].
  apply NoDup_filter, most_common_nodup.
Qed.



(** ** Patterns that cannot match *)

Lemma free_cons p c s : free p (c :: s) <-> p c = false /\ free p s.
Proof.
  unfold free. cbn [forallb]. rewrite andb_true_iff, negb_true_iff. tauto.
Qed.

Lemma free_nil p : free p [].
Proof. reflexivity. Qed.

Lemma free_in p s : free p s <-> forall c, In c s -> p c = false.
Proof.
  unfold free. rewrite forallb_forall. split; intros H c Hc.
  - apply negb_true_iff. now apply H.
  - apply negb_true_iff. now apply H.
Qed.

Section NoMatch.
Variable A : Type.
Variable p : char -> bool.

Lemma rep_greedy_fail q (k : mstate -> option A) :
  fails_on_free p k ->
  forall s min pv n cp,
    free p s -> rep_greedy q min pv n s cp k = None.
Proof.
  intros Hk. induction s as [|c s IH]; intros min pv n cp Hfree.
  - cbn [rep_greedy]. destruct min; [now apply Hk|reflexivity].
  - cbn [rep_greedy].
    assert (Hstop : match min with
                    | O => k (MState pv n (c :: s) cp)
                    | S _ => None
                    end = None).
    { destruct min; [now apply Hk|reflexivity]. }
    apply free_cons in Hfree. destruct Hfree as [_ Hfree].
    destruct (q c); [rewrite IH by exact Hfree|]; exact Hstop.
Qed.

Lemma rep_lazy_fail q (k : mstate -> option A) :
  fails_on_free p k ->
  forall s min pv n cp,
    free p s -> rep_lazy q min pv n s cp k = None.
Proof.
  intros Hk. induction s as [|c s IH]; intros min pv n cp Hfree.
  - cbn [rep_lazy]. destruct min; [|reflexivity].
    now rewrite (Hk (MState pv n [] cp) Hfree).
  - cbn [rep_lazy].
    assert (Hmore : (if q c
                     then rep_lazy q (Nat.pred min) (Some c) (S n) s cp k
                     else None) = None).
    { apply free_cons in Hfree. destruct Hfree as [_ Hfree'].
      destruct (q c); [now apply IH|reflexivity]. }
    destruct min; [|exact Hmore].
    now rewrite (Hk (MState pv n (c :: s) cp) Hfree).
Qed.

(** The matcher only moves forward, so it reaches its continuation on a
    text that is still free of [p]. *)
Lemma run_fail r :
  forall st (k : mstate -> option A), fails_on_free p k -> free p (rest st) -> run r st k = None.
Proof.
  induction r as [|q|r1 IH1 r2 IH2|r1 IH1 r2 IH2|g min q|ml|r1 IH1];
    intros st k Hk Hfree; cbn [run].
  - now apply Hk.
  - destruct (rest st) as [|c s] eqn:E; [reflexivity|].
    apply free_cons in Hfree. destruct (q c); [|reflexivity].
    apply Hk. cbn [rest]. tauto.
  - apply IH1; [|exact Hfree]. intros st' Hst'. now apply IH2.
  - rewrite IH1 by assumption. now apply IH2.
  - destruct g; [apply rep_greedy_fail|apply rep_lazy_fail]; assumption.
  - destruct (at_bol ml (prev st)); [now apply Hk|reflexivity].
  - apply IH1; [|exact Hfree]. intros st' Hst'. now apply Hk.
Qed.

(** A pattern that needs a character of [p] fails on a text free of
    [p], whatever follows it. *)
Lemma run_needs r :
  needs p r ->
  forall st (k : mstate -> option A), free p (rest st) -> run r st k = None.
Proof.
  induction r as [|q|r1 IH1 r2 IH2|r1 IH1 r2 IH2|g min q|ml|r1 IH1];
    intros Hneeds st k Hfree; cbn [run]; cbn [needs] in Hneeds.
  - destruct Hneeds.
  - destruct (rest st) as [|c s] eqn:E; [reflexivity|].
    apply free_cons in Hfree. destruct (q c) eqn:Eq; [|reflexivity].
    apply Hneeds in Eq. destruct Hfree. congruence.
  - destruct Hneeds as [H1|H2]; [now apply IH1|].
    apply run_fail; [|exact Hfree]. intros st' Hst'. now apply IH2.
  - destruct Hneeds as [H1 H2]. rewrite IH1 by assumption. now apply IH2.
  - destruct Hneeds as [Hmin Hq].
    destruct min as [|m]; [lia|].
    assert (Hhead : forall c, p c = false -> q c = false).
    { intros c Hc. destruct (q c) eqn:Eq; [|reflexivity].
      apply Hq in Eq. congruence. }
    destruct (rest st) as [|c s] eqn:E.
    + destruct g; reflexivity.
    + apply free_cons in Hfree. destruct Hfree as [Hc _].
      destruct g; [cbn [rep_greedy]|cbn [rep_lazy]];
        now rewrite (Hhead c Hc).
  - destruct Hneeds.
  - now apply IH1.
Qed.
End NoMatch.

Lemma match_at_needs p r pv s :
  needs p r -> free p s -> match_at r pv s = None.
Proof. intros Hn Hf. unfold match_at. now apply run_needs with (p := p). Qed.

Lemma sub_from_free p r repl :
  needs p r ->
  forall s pv, free p s -> sub_from r repl 0 pv s = s.
Proof.
  intros Hn. induction s as [|c s IH]; intros pv Hf; cbn [sub_from].
  - now rewrite (match_at_needs p r pv [] Hn Hf).
  - rewrite (match_at_needs p r pv (c :: s) Hn Hf).
    apply free_cons in Hf. f_equal. now apply IH.
Qed.

Lemma re_sub_free p r repl s :
  needs p r -> free p s -> re_sub r repl s = s.
Proof. intros. unfold re_sub. now apply sub_from_free with (p := p). Qed.

Lemma search_from_free p r :
  needs p r ->
  forall s i pv, free p s -> search_from r i pv s = None.
Proof.
  intros Hn. induction s as [|c s IH]; intros i pv Hf; cbn [search_from].
  - now rewrite (match_at_needs p r pv [] Hn Hf).
  - rewrite (match_at_needs p r pv (c :: s) Hn Hf).
    apply free_cons in Hf. now apply IH.
Qed.

Lemma re_search_free p r s :
  needs p r -> free p s -> re_search r s = None.
Proof. intros. unfold re_search. now apply search_from_free with (p := p). Qed.

(** ** What each pattern of [clean] needs *)

Lemma needs_Lits p c : forall s, In c s -> p c = true -> needs p (Lits s).
Proof.
  induction s as [|d s IH]; intros Hin Hp; [destruct Hin|].
  cbn [Lits needs]. destruct Hin as [->|Hin]; [left|right; auto].
  intros x Hx. apply N.eqb_eq in Hx. now subst.
Qed.

Lemma needs_LitsI U p c :
  forall s, In c s -> is_ascii_letter c = false -> p c = true ->
            needs p (LitsI U s).
Proof.
  induction s as [|d s IH]; intros Hin Hl Hp; [destruct Hin|].
  cbn [LitsI needs]. destruct Hin as [->|Hin]; [left|right; auto].
  rewrite Hl. intros x Hx. apply N.eqb_eq in Hx. now subst.
Qed.

Lemma needs_frontmatter : needs is_trigger frontmatter_re.
Proof.
  unfold frontmatter_re. cbn [needs]. right. left.
  apply needs_Lits with (c := 45%N); [simpl; auto|reflexivity].
Qed.

Lemma needs_link : needs is_trigger link_re.
Proof.
  unfold link_re. cbn [needs]. left.
  apply needs_Lits with (c := 91%N); [simpl; auto|reflexivity].
Qed.

Lemma needs_noise U : needs is_trigger (noise_re U).
Proof.
  unfold noise_re. cbn [needs]. split; [|split].
  - left. apply needs_LitsI with (c := 64%N);
      [simpl; auto|reflexivity|reflexivity].
  - right. right. left.
    apply needs_Lits with (c := 58%N); [simpl; auto|reflexivity].
  - left. apply needs_LitsI with (c := 58%N);
      [simpl; auto 6|reflexivity|reflexivity].
Qed.

Lemma needs_image : needs is_trigger image_re.
Proof.
  unfold image_re. cbn [needs]. left.
  apply needs_Lits with (c := 91%N); [simpl; auto|reflexivity].
Qed.

Lemma one_of_incl a b c :
  incl a b -> one_of a c = true -> one_of b c = true.
Proof.
  unfold one_of. rewrite !existsb_exists.
  intros Hi (x & Hx & He). exists x. auto.
Qed.

Lemma needs_markup : needs is_trigger markup_re.
Proof.
  unfold markup_re. cbn [needs]. intros c Hc. unfold is_trigger.
  rewrite (one_of_incl (lit "*#>`~") (lit "-[@:*#>`~") c); [reflexivity| |exact Hc].
  intros x Hx. simpl in Hx |- *. tauto.
Qed.

Lemma needs_caption U : needs (u_digit U) (caption_re U).
Proof.
  unfold caption_re. cbn [needs].
  split; right; right; right; left; (split; [lia|auto]).
Qed.

Lemma needs_cutoff U : needs is_trigger (cutoff_re U).
Proof.
  unfold cutoff_re. cbn [needs]. left.
  intros x Hx. apply N.eqb_eq in Hx. now subst.
Qed.

(** ** Trimming twice *)

Lemma lstrip_fix t :
  (forall c t', t = c :: t' -> is_space c = false) -> lstrip t = t.
Proof.
  destruct t as [|c t]; [reflexivity|]. intros H. cbn [lstrip].
  now rewrite (H c t eq_refl).
Qed.

Lemma rstrip_fix t :
  (forall c t', t = t' ++ [c] -> is_space c = false) -> rstrip t = t.
Proof.
  intros H. unfold rstrip. rewrite lstrip_fix; [apply rev_involutive|].
  intros c t' Ht. apply (H c (rev t')).
  rewrite <- (rev_involutive t), Ht. reflexivity.
Qed.

Lemma strip_idempotent s : strip (strip s) = strip s.
Proof.
  destruct (strip_trimmed s) as (a & b & _ & _ & _ & Hhead & Hlast).
  unfold strip at 1. rewrite lstrip_fix by exact Hhead.
  now apply rstrip_fix.
Qed.

Lemma free_strip p s : free p s -> free p (strip s).
Proof.
  rewrite !free_in. intros H c Hc. apply H.
  destruct (strip_trimmed s) as (a & b & Hs & _).
  rewrite Hs. apply in_or_app. right. apply in_or_app. now left.
Qed.

Lemma free_noise U s :
  free (is_noise U) s -> free is_trigger s /\ free (u_digit U) s.
Proof.
  rewrite !free_in. unfold is_noise. intros H.
  split; intros c Hc; apply H in Hc; apply orb_false_iff in Hc; tauto.
Qed.

(** On a text free of triggers and digits only the trimming acts. *)
Lemma clean_plain U x : free (is_noise U) x -> clean U x = strip x.
Proof.
  intros Hfree. apply free_noise in Hfree. destruct Hfree as [Ht Hd].
  unfold clean, remove_frontmatter.
  rewrite (re_sub_free is_trigger frontmatter_re erase x needs_frontmatter Ht).
  rewrite (re_sub_free is_trigger link_re _ x needs_link Ht).
  rewrite (re_sub_free is_trigger (noise_re U) erase x (needs_noise U) Ht).
  rewrite (re_sub_free is_trigger image_re erase x needs_image Ht).
  rewrite (re_sub_free is_trigger markup_re erase x needs_markup Ht).
  rewrite (re_sub_free (u_digit U) (caption_re U) erase x (needs_caption U) Hd).
  now rewrite (re_search_free is_trigger (cutoff_re U) x (needs_cutoff U) Ht).
Qed.

(** ** Idempotence of [clean] *)

(** C4 (as stated, refuted): the text " Table 1 shows growth" holds no
    frontmatter block, no link and no citation, URL or doi record; its
    normal form loses the leading blank, and normalizing that again
    removes the whole line as a table caption. *)
Lemma clean_not_idempotent :
  re_search frontmatter_re sample_caption = None /\
  re_search link_re sample_caption = None /\
  re_search (noise_re ascii_tables) sample_caption = None /\
  clean ascii_tables sample_caption = lit "Table 1 shows growth" /\
  clean ascii_tables (clean ascii_tables sample_caption) = [] /\
  str_eqb (clean ascii_tables (clean ascii_tables sample_caption))
          (clean ascii_tables sample_caption) = false.
Proof. vm_compute. repeat split. Qed.

(** * Further properties of the script *)

(** ** The walk over the ranking *)


(** ** The ranking *)

Lemma pair_geb_ranks a b : pair_ltb a b = false -> ranks_before a b.
Proof.
  unfold pair_ltb, ranks_before. destruct a as [m s], b as [n t]. simpl.
  destruct (Z.eqb_spec m n) as [->|Hne].
  - intros H. right. auto.
  - intros H. apply Z.ltb_ge in H. left. lia.
Qed.

(** Line 54: the ranking holds the scored sentences, each as often as it
    was given, the higher score first and, among equal scores, the
    sentence that compares greater first. *)
Theorem ranking_sorted :
  forall scored : list (Z * str),
    Permutation (sorted_desc pair_ltb scored) scored /\
    StronglySorted ranks_before (sorted_desc pair_ltb scored).
Proof.
  intros scored. split; [apply sorted_desc_perm|].
  apply sorted_weaken with (R := geb pair_ltb).
  - intros a b. apply pair_geb_ranks.
  - apply sorted_desc_sorted;
      [exact pair_ltb_asym|exact pair_geb_trans].
Qed.

(** ** Bounds on the scores *)

Lemma filter_length_le (A : Type) (f : A -> bool) (l : list A) :
  (length (filter f l) <= length l)%nat.
Proof.
  induction l as [|x l IH]; simpl; [lia|].
  destruct (f x); simpl; lia.
Qed.

(** A keyword score counts common words, and there are at most 20 of
    them: every score lies between 0 and 20. *)
Theorem score_between_0_and_20 :
  forall (U : unicode) (set_iter : list str -> list str) (text s : str),
    (forall l, Permutation (set_iter l) l) ->
    (0 <= score U (common_set U set_iter text) s)%Z /\
    (score U (common_set U set_iter text) s <= 20)%Z.
Proof.
  intros U set_iter text s Hperm.
  rewrite score_count. split; [lia|].
  pose proof (filter_length_le _
    (fun w => contains (u_lower U s) (firstn 5 w))
    (common_set U set_iter text)) as H1.
  pose proof (Permutation_length (common_set_perm_top U set_iter text Hperm))
    as H2.
  pose proof (filter_length_le _ (fun w => (4 <? len w)%Z)
    (map fst (most_common 20
       (Counter (re_findall (word_re U) (u_lower U text)))))) as H3.
  rewrite length_map in H3.
  pose proof (most_common_length 20
    (Counter (re_findall (word_re U) (u_lower U text)))) as H4.
  change (Z.to_nat 20) with 20%nat in H4. unfold str in *. lia.
Qed.

(** The bound at a two-sentence text. *)
Lemma score_between_0_and_20_witness :
  (0 <= score ascii_tables (common_set ascii_tables seed0 sample_pair)
          sentence_a)%Z /\
  (score ascii_tables (common_set ascii_tables seed0 sample_pair)
     sentence_a <= 20)%Z.
Proof.
  apply (score_between_0_and_20 ascii_tables seed0 sample_pair sentence_a).
  intros l. reflexivity.
Defined.

(** ** Length of the summary *)

Lemma total_len_long (l : list str) :
  (forall s, In s l -> (20 < len s)%Z) ->
  (21 * Z.of_nat (length l) <= total_len l)%Z.
Proof.
  induction l as [|s l IH]; intros H; [simpl; lia|].
  cbn [total_len fold_right length]. fold (total_len l).
  pose proof (H s (or_introl eq_refl)).
  assert (21 * Z.of_nat (length l) <= total_len l)%Z
    by (apply IH; intros t Ht; apply H; now right).
  lia.
Qed.

Lemma len_slice_to (s : str) (n : Z) :
  (0 <= n)%Z -> (len (slice_to s n) <= n)%Z.
Proof.
  intros Hn. rewrite slice_to_nonneg by exact Hn.
  unfold len. pose proof (firstn_le_length (Z.to_nat n) s). lia.
Qed.

Lemma summarize_len_le U set_iter text B :
  (0 <= B)%Z ->
  (len (summarize U set_iter text B)
   <= Z.max 36 (Z.max (B + 1) (B + B / 21 - 1)))%Z.
Proof.
  intros HB. unfold summarize.
  destruct (segment (clean U text)) as [|s0 l0] eqn:Eseg.
  { change (len nothing_msg) with 36%Z. lia. }
  rewrite <- Eseg.
  set (ranked := sorted_desc pair_ltb _).
  assert (Hlong : forall s, In s (map snd ranked) -> (20 < len s)%Z).
  { intros s Hs. subst ranked. apply ranked_in in Hs.
    now apply segment_long in Hs. }
  destruct (select_budget_shape ranked (clean U text) B Hlong)
    as [[Hne ->]|[_ ->]].
  - rewrite len_join_space by exact Hne.
    pose proof (take_budget_total B ranked 0%Z HB) as Htot.
    assert (Hk : (21 * Z.of_nat (length (take_budget ranked 0 B))
                  <= total_len (take_budget ranked 0 B))%Z).
    { apply total_len_long. intros s Hs. apply Hlong.
      eapply take_budget_incl, Hs. }
    assert (Z.of_nat (length (take_budget ranked 0 B)) <= B / 21)%Z
      by (apply Z.div_le_lower_bound; lia).
    lia.
  - rewrite len_app. change (len [ellipsis]) with 1%Z.
    pose proof (len_slice_to (clean U text) B HB). lia.
Qed.

(** With a budget B >= 0 the summary has at most max(36, B + 1,
    B + B/21 - 1) characters: 36 for the fixed message, B + 1 for the
    fallback, and, for a join, the budget plus one space for each chosen
    sentence after the first, of which at most B/21 fit. *)
Theorem summary_length_bound :
  forall (U : unicode) (set_iter : list str -> list str)
         (text : str) (B : Z),
    (0 <= B)%Z ->
    (len (summarize U set_iter text B)
     <=? Z.max 36 (Z.max (B + 1) (B + B / 21 - 1)))%Z = true.
Proof.
  intros U set_iter text B HB. apply Z.leb_le.
  now apply summarize_len_le.
Qed.

(** The bound at a two-sentence text and budget 42. *)
Lemma summary_length_bound_witness :
  (len (summarize ascii_tables seed0 sample_pair 42)
   <=? Z.max 36 (Z.max (42 + 1) (42 + 42 / 21 - 1)))%Z = true.
Proof.
  apply (summary_length_bound ascii_tables seed0 sample_pair 42). lia.
Defined.

(** ** Asking for more tags *)

Lemma firstn_prefix (A : Type) (l : list A) :
  forall n m, (n <= m)%nat ->
    exists more, firstn m l = firstn n l ++ more.
Proof.
  induction l as [|x l IH]; intros n m Hnm.
  - exists []. now rewrite !firstn_nil.
  - destruct n as [|n]; [now exists (firstn m (x :: l))|].
    destruct m as [|m]; [lia|].
    destruct (IH n m) as [more Hmore]; [lia|].
    exists more. cbn [firstn app]. now rewrite Hmore.
Qed.

(** A larger [top] only appends tags: the tags for [top] open the tags
    for any [top' >= top]. *)
Theorem tag_prefix :
  forall (U : unicode) (text : str) (top top' : Z),
    (top <= top')%Z ->
    exists more, tag U text top' = tag U text top ++ more.
Proof.
  intros U text top top' Hle. unfold tag, most_common.
  destruct (firstn_prefix _
              (sorted_desc count_ltb (Counter (candidates U text)))
              (Z.to_nat top) (Z.to_nat top')) as [more Hmore]; [lia|].
  exists (map fst more). now rewrite Hmore, map_app.
Qed.

(** One tag and three tags of the same text. *)
Lemma tag_prefix_witness :
  exists more,
    tag ascii_tables sample_tags 3 = tag ascii_tables sample_tags 1 ++ more.
Proof.
  apply (tag_prefix ascii_tables sample_tags 1 3). lia.
Defined.

(** ** Sentences are taken verbatim *)

Lemma substring_trans (a b c : str) :
  substring a b -> substring b c -> substring a c.
Proof.
  intros (u & v & ->) (u' & v' & ->).
  exists (u' ++ u), (v ++ v'). now rewrite <- !app_assoc.
Qed.

Lemma interleave_substring :
  forall pieces seps p,
    length pieces = S (length seps) -> In p pieces ->
    substring p (interleave pieces seps).
Proof.
  induction pieces as [|p0 ps IH]; intros seps p Hlen Hin; [destruct Hin|].
  destruct seps as [|sp seps].
  - destruct ps; [|discriminate]. destruct Hin as [->|[]].
    exists [], []. now rewrite app_nil_r.
  - cbn [interleave]. destruct Hin as [->|Hin].
    + exists [], (sp ++ interleave ps seps). reflexivity.
    + destruct (IH seps p) as (u & v & Huv); [simpl in Hlen; lia|exact Hin|].
      exists (p0 ++ sp ++ u), v. rewrite Huv. now rewrite <- !app_assoc.
Qed.

Lemma strip_substring (s : str) : substring (strip s) s.
Proof.
  destruct (strip_trimmed s) as (a & b & Hs & _). now exists a, b.
Qed.

Lemma no_punct_substring (t s : str) :
  substring t s -> no_punct s -> no_punct t.
Proof.
  unfold no_punct. intros (a & b & ->).
  rewrite !forallb_app, !andb_true_iff. tauto.
Qed.

Lemma segment_shape (text s : str) :
  In s (segment text) ->
  substring s text /\ no_punct s /\ strip s = s /\ (20 < len s)%Z.
Proof.
  intros Hs.
  pose proof (segment_long text s Hs) as Hlong.
  unfold segment in Hs. apply in_map_iff in Hs.
  destruct Hs as (p & <- & Hp). apply filter_In in Hp. destruct Hp as [Hp _].
  destruct (split_plus_spec is_punct (length text) text (le_n _) None [])
    as (p0 & ps & seps & Hout & Hlen & Htext & Hp0 & Hps & _).
  change (re_split punct_re text = p0 :: ps) in Hout.
  rewrite Hout in Hp.
  assert (Hnp : no_punct p).
  { destruct Hp as [<-|Hp]; [exact Hp0|].
    rewrite Forall_forall in Hps. now apply Hps. }
  assert (Hsub : substring p text).
  { rewrite Htext. apply interleave_substring; [|exact Hp].
    simpl. f_equal. symmetry. exact Hlen. }
  repeat split.
  - eapply substring_trans; [apply strip_substring|exact Hsub].
  - eapply no_punct_substring; [apply strip_substring|exact Hnp].
  - apply strip_idempotent.
  - exact Hlong.
Qed.

(** Line 42: every sentence of the segmentation stands verbatim in the
    text it was cut from, holds none of '.', '!' and '?', has no white
    space at either end and is longer than 20 characters. *)
Theorem sentences_verbatim :
  forall text : str,
    Forall (fun s => substring s text /\ no_punct s /\
                     strip s = s /\ (20 < len s)%Z)
           (segment text).
Proof.
  intros text. apply Forall_forall. intros s Hs. now apply segment_shape.
Qed.

(** ** The clean text is trimmed *)

(** Line 38: whatever [clean] returns has no white space at its start or
    at its end, so trimming it again changes nothing. *)
Theorem clean_is_trimmed :
  forall (U : unicode) (x : str),
    strip (clean U x) = clean U x /\
    (forall c t, clean U x = c :: t -> is_space c = false) /\
    (forall c t, clean U x = t ++ [c] -> is_space c = false).
Proof.
  intros U x.
  assert (Hy : exists y, clean U x = strip y)
    by (unfold clean; eexists; reflexivity).
  destruct Hy as [y ->].
  destruct (strip_trimmed y) as (a & b & _ & _ & _ & Hhead & Hlast).
  split; [apply strip_idempotent|split; assumption].
Qed.

(** ** Subsequences *)

Lemma subseq_refl s : subseq s s.
Proof. induction s; [apply subseq_nil|now apply subseq_keep]. Qed.

Lemma subseq_nil_l s : subseq [] s.
Proof. induction s; [apply subseq_nil|now apply subseq_skip]. Qed.

Lemma subseq_trans a b c : subseq a b -> subseq b c -> subseq a c.
Proof.
  intros Hab Hbc. revert a Hab.
  induction Hbc as [|x b c Hbc IH|x b c Hbc IH]; intros a Hab.
  - exact Hab.
  - apply subseq_skip. auto.
  - inversion Hab; subst; [apply subseq_skip|apply subseq_keep]; auto.
Qed.

Lemma subseq_app a b c d :
  subseq a b -> subseq c d -> subseq (a ++ c) (b ++ d).
Proof.
  induction 1; intros Hcd; simpl;
    [exact Hcd|apply subseq_skip|apply subseq_keep]; auto.
Qed.

Lemma substring_subseq g w : substring g w -> subseq g w.
Proof.
  intros (a & b & ->).
  change g with ([] ++ g) at 1. apply subseq_app; [apply subseq_nil_l|].
  rewrite <- (app_nil_r g) at 1.
  apply subseq_app; [apply subseq_refl|apply subseq_nil_l].
Qed.

Lemma subseq_firstn n s : subseq (firstn n s) s.
Proof.
  apply substring_subseq. exists [], (skipn n s).
  symmetry. apply firstn_skipn.
Qed.

Lemma subseq_strip s : subseq (strip s) s.
Proof. apply substring_subseq, strip_substring. Qed.

Lemma subseq_length a b : subseq a b -> (length a <= length b)%nat.
Proof. induction 1; simpl; lia. Qed.

Lemma subseq_in a b c : subseq a b -> In c a -> In c b.
Proof.
  induction 1 as [|x a b H IH|x a b H IH]; simpl; auto.
  intros [->|Hc]; auto.
Qed.

Lemma free_subseq p a b : subseq a b -> free p b -> free p a.
Proof.
  rewrite !free_in. intros Hs H c Hc. apply H. eapply subseq_in; eauto.
Qed.

(** ** What a match consumes *)

Lemma advances_refl st : advances st st.
Proof. exists []. simpl. repeat split; auto. Qed.

Lemma advances_trans a b c : advances a b -> advances b c -> advances a c.
Proof.
  intros (w1 & Hr1 & Hp1 & Hc1) (w2 & Hr2 & Hp2 & Hc2).
  exists (w1 ++ w2). split; [|split].
  - rewrite Hr1, Hr2. now rewrite app_assoc.
  - rewrite Hp2, Hp1, length_app. lia.
  - destruct Hc2 as [Hc2|(u & v & ->)].
    + rewrite Hc2. destruct Hc1 as [Hc1|(u & v & ->)]; [now left|right].
      exists u, (v ++ w2). now rewrite <- !app_assoc.
    + right. exists (w1 ++ u), v. now rewrite <- !app_assoc.
Qed.

Section Soundness.
Variable A : Type.

Lemma rep_greedy_sound q (k : mstate -> option A) x :
  forall s min pv n cp,
    rep_greedy q min pv n s cp k = Some x ->
    exists st', advances (MState pv n s cp) st' /\ k st' = Some x.
Proof.
  induction s as [|c s IH]; intros min pv n cp H; cbn [rep_greedy] in H.
  - destruct min; [|discriminate]. eexists. split; [apply advances_refl|exact H].
  - assert (Hstop : match min with
                    | O => k (MState pv n (c :: s) cp)
                    | S _ => None
                    end = Some x ->
                    exists st', advances (MState pv n (c :: s) cp) st' /\
                                k st' = Some x).
    { destruct min; [|discriminate]. intros Hk.
      eexists. split; [apply advances_refl|exact Hk]. }
    destruct (q c); [|now apply Hstop].
    destruct (rep_greedy q (Nat.pred min) (Some c) (S n) s cp k) eqn:E;
      [|now apply Hstop].
    injection H as ->. apply IH in E. destruct E as (st' & Hadv & Hk).
    exists st'. split; [|exact Hk].
    eapply advances_trans; [|exact Hadv].
    exists [c]. cbn. repeat split; auto. lia.
Qed.

Lemma rep_lazy_sound q (k : mstate -> option A) x :
  forall s min pv n cp,
    rep_lazy q min pv n s cp k = Some x ->
    exists st', advances (MState pv n s cp) st' /\ k st' = Some x.
Proof.
  induction s as [|c s IH]; intros min pv n cp H; cbn [rep_lazy] in H.
  - destruct min; [|discriminate].
    destruct (k (MState pv n [] cp)) eqn:E; [|discriminate].
    injection H as ->. eexists. split; [apply advances_refl|exact E].
  - assert (Hmore : (if q c
                     then rep_lazy q (Nat.pred min) (Some c) (S n) s cp k
                     else None) = Some x ->
                    exists st', advances (MState pv n (c :: s) cp) st' /\
                                k st' = Some x).
    { destruct (q c); [|discriminate]. intros E.
      apply IH in E. destruct E as (st' & Hadv & Hk).
      exists st'. split; [|exact Hk].
      eapply advances_trans; [|exact Hadv].
      exists [c]. cbn. repeat split; auto. lia. }
    destruct min; [|now apply Hmore].
    destruct (k (MState pv n (c :: s) cp)) eqn:E; [|now apply Hmore].
    injection H as ->. eexists. split; [apply advances_refl|exact E].
Qed.

(** A successful run reaches its continuation after reading a block of
    the text ahead. *)
Lemma run_sound r :
  forall st (k : mstate -> option A) x,
    run r st k = Some x ->
    exists st', advances st st' /\ k st' = Some x.
Proof.
  induction r as [|q|r1 IH1 r2 IH2|r1 IH1 r2 IH2|g min q|ml|r1 IH1];
    intros st k x H; cbn [run] in H.
  - exists st. split; [apply advances_refl|exact H].
  - destruct (rest st) as [|c s] eqn:E; [discriminate|].
    destruct (q c); [|discriminate].
    eexists. split; [|exact H].
    exists [c]. cbn. rewrite E. repeat split; auto. lia.
  - apply IH1 in H. destruct H as (st1 & Ha1 & H).
    apply IH2 in H. destruct H as (st2 & Ha2 & H).
    exists st2. split; [eapply advances_trans; eauto|exact H].
  - destruct (run r1 st k) eqn:E.
    + injection H as ->. now apply IH1.
    + now apply IH2.
  - destruct st as [pv n s cp]. cbn [prev pos rest cap] in H.
    destruct g; [now apply rep_greedy_sound with (q := q) (min := min)
                |now apply rep_lazy_sound with (q := q) (min := min)].
  - destruct (at_bol ml (prev st)); [|discriminate].
    exists st. split; [apply advances_refl|exact H].
  - apply IH1 in H. destruct H as (st1 & (w & Hr & Hp & Hc) & H).
    eexists. split; [|exact H].
    exists w. cbn [rest pos cap]. split; [exact Hr|split; [exact Hp|]].
    right. exists [], []. rewrite app_nil_r. cbn [app].
    rewrite Hr, Hp.
    replace (pos st + length w - pos st)%nat with (length w) by lia.
    rewrite firstn_app, Nat.sub_diag, firstn_all. cbn. now rewrite app_nil_r.
Qed.
End Soundness.

(** A match covers a block at the head of the text, and group 1 is empty
    or a block of it. *)
Lemma match_at_sound r pv s n g :
  match_at r pv s = Some (n, g) ->
  exists w s', s = w ++ s' /\ n = length w /\ (g = [] \/ substring g w).
Proof.
  unfold match_at. intros H. apply run_sound in H.
  destruct H as (st' & (w & Hr & Hp & Hc) & Hk).
  injection Hk as <- <-. cbn [rest pos cap] in *.
  exists w, (rest st'). repeat split; auto.
Qed.

(** ** Substitution only removes *)

Lemma skipn_length_app (A : Type) (w s : list A) :
  skipn (length w) (w ++ s) = s.
Proof. induction w; simpl; auto. Qed.

Lemma substring_nil_inv (g : str) : substring g [] -> g = [].
Proof.
  intros (a & b & H). symmetry in H.
  apply app_eq_nil in H. destruct H as [_ H].
  now apply app_eq_nil in H.
Qed.

(** When the replacement is a part of what it replaces, [re.sub] gives
    the text with some characters left out. *)
Lemma sub_from_subseq r repl :
  repl [] = [] ->
  (forall g w, substring g w -> subseq (repl g) w) ->
  forall s skip pv, subseq (sub_from r repl skip pv s) (skipn skip s).
Proof.
  intros Hnil Hrepl.
  assert (Hg : forall g w, g = [] \/ substring g w -> subseq (repl g) w).
  { intros g w [->|H]; [rewrite Hnil; apply subseq_nil_l|now apply Hrepl]. }
  induction s as [|c s IH]; intros skip pv.
  - rewrite skipn_nil. cbn [sub_from].
    destruct skip; [|apply subseq_nil].
    destruct (match_at r pv []) as [[n g]|] eqn:E; [|apply subseq_nil].
    apply match_at_sound in E. destruct E as (w & s' & Hs & _ & Hgw).
    symmetry in Hs. apply app_eq_nil in Hs. destruct Hs as [-> _].
    now apply Hg.
  - cbn [sub_from]. destruct skip as [|skip]; [|apply IH].
    cbn [skipn].
    destruct (match_at r pv (c :: s)) as [[n g]|] eqn:E.
    + apply match_at_sound in E. destruct E as (w & s' & Hs & -> & Hgw).
      destruct w as [|d w]; cbn [length].
      * assert (subseq (repl g) []) as Hr by now apply Hg.
        inversion Hr. cbn [app]. apply subseq_keep.
        apply (IH 0%nat).
      * cbn [app] in Hs. injection Hs as <- ->.
        change (c :: w ++ s') with ((c :: w) ++ s').
        apply subseq_app; [now apply Hg|].
        rewrite <- (skipn_length_app _ w s') at 2. apply IH.
    + apply subseq_keep. apply (IH 0%nat).
Qed.

Lemma re_sub_erase_subseq r s : subseq (re_sub r erase s) s.
Proof.
  apply (sub_from_subseq r erase eq_refl) with (skip := 0%nat).
  intros g w _. apply subseq_nil_l.
Qed.

Lemma re_sub_group_subseq r s : subseq (re_sub r (fun g => g) s) s.
Proof.
  apply (sub_from_subseq r (fun g => g) eq_refl) with (skip := 0%nat).
  intros g w. apply substring_subseq.
Qed.

(** Removing one class of characters leaves none of them. *)
Lemma sub_from_class_free q :
  forall s skip pv, free q (sub_from (Chr q) erase skip pv s).
Proof.
  induction s as [|c s IH]; intros skip pv; cbn [sub_from].
  - destruct skip; apply free_nil.
  - destruct skip as [|skip]; [|apply IH].
    unfold match_at. cbn [run rest pos cap].
    destruct (q c) eqn:E; cbn [erase app].
    + apply IH.
    + apply free_cons. split; [exact E|apply IH].
Qed.

(** The steps of [clean] after the markup symbols are removed only leave
    characters out. *)
Lemma clean_tail_subseq U (y : str) :
  subseq
    (strip
       (match re_search (cutoff_re U) (re_sub (caption_re U) erase y) with
        | Some i => firstn i (re_sub (caption_re U) erase y)
        | None => re_sub (caption_re U) erase y
        end))
    y.
Proof.
  eapply subseq_trans; [apply subseq_strip|].
  eapply subseq_trans; [|apply re_sub_erase_subseq].
  destruct (re_search (cutoff_re U) (re_sub (caption_re U) erase y));
    [apply subseq_firstn|apply subseq_refl].
Qed.

Lemma clean_head_subseq U (x : str) :
  subseq
    (re_sub markup_re erase
       (re_sub image_re erase
          (re_sub (noise_re U) erase
             (re_sub link_re (fun g => g) (remove_frontmatter x)))))
    x.
Proof.
  eapply subseq_trans; [apply re_sub_erase_subseq|].
  eapply subseq_trans; [apply re_sub_erase_subseq|].
  eapply subseq_trans; [apply re_sub_erase_subseq|].
  eapply subseq_trans; [apply re_sub_group_subseq|].
  apply re_sub_erase_subseq.
Qed.

Lemma clean_subseq U (x : str) : subseq (clean U x) x.
Proof.
  unfold clean. eapply subseq_trans;
    [apply clean_tail_subseq|apply clean_head_subseq].
Qed.

(** [clean] never invents or reorders text: its result is the input with
    some characters left out, so it is no longer than the input and holds
    no character the input does not hold. *)
Theorem clean_only_removes :
  forall (U : unicode) (x : str),
    subseq (clean U x) x /\
    (len (clean U x) <= len x)%Z /\
    (forall c, In c (clean U x) -> In c x).
Proof.
  intros U x. pose proof (clean_subseq U x) as H.
  split; [exact H|split].
  - unfold len. apply subseq_length in H. lia.
  - intros c. now apply subseq_in.
Qed.

(** The clean text holds none of the markup symbols * # > ` ~. *)
Theorem clean_has_no_markup :
  forall (U : unicode) (x : str),
    free (one_of (lit "*#>`~")) (clean U x).
Proof.
  intros U x. unfold clean.
  eapply free_subseq; [apply clean_tail_subseq|].
  apply sub_from_class_free.
Qed.

(** ** Patterns without [^] ignore what came before *)

Section PrevIrrelevant.
Variable A : Type.

Lemma rep_greedy_prev q (k k' : mstate -> option A) :
  agree k k' ->
  forall s min pv pv' n cp,
    rep_greedy q min pv n s cp k = rep_greedy q min pv' n s cp k'.
Proof.
  intros Hk. induction s as [|c s IH]; intros min pv pv' n cp;
    cbn [rep_greedy].
  - destruct min; [|reflexivity]. apply Hk. repeat split.
  - assert (Hstop : match min with
                    | O => k (MState pv n (c :: s) cp)
                    | S _ => None
                    end
                    = match min with
                      | O => k' (MState pv' n (c :: s) cp)
                      | S _ => None
                      end).
    { destruct min; [|reflexivity]. apply Hk. repeat split. }
    destruct (q c); [|exact Hstop].
    rewrite (IH (Nat.pred min) (Some c) (Some c) (S n) cp).
    now rewrite Hstop.
Qed.

Lemma rep_lazy_prev q (k k' : mstate -> option A) :
  agree k k' ->
  forall s min pv pv' n cp,
    rep_lazy q min pv n s cp k = rep_lazy q min pv' n s cp k'.
Proof.
  intros Hk. induction s as [|c s IH]; intros min pv pv' n cp;
    cbn [rep_lazy].
  - destruct min; [|reflexivity].
    now rewrite (Hk (MState pv n [] cp) (MState pv' n [] cp))
      by (repeat split).
  - rewrite (IH (Nat.pred min) (Some c) (Some c) (S n) cp).
    destruct min; [|reflexivity].
    now rewrite (Hk (MState pv n (c :: s) cp) (MState pv' n (c :: s) cp))
      by (repeat split).
Qed.

Lemma run_prev r :
  bol_free r ->
  forall st st' (k k' : mstate -> option A),
    same_ahead st st' -> agree k k' -> run r st k = run r st' k'.
Proof.
  induction r as [|q|r1 IH1 r2 IH2|r1 IH1 r2 IH2|g min q|ml|r1 IH1];
    intros Hfree st st' k k' Hst Hk; cbn [run]; cbn [bol_free] in Hfree.
  - now apply Hk.
  - destruct Hst as (Hp & Hr & Hc). rewrite <- Hr, <- Hp, <- Hc.
    destruct (rest st) as [|c s]; [reflexivity|].
    destruct (q c); [|reflexivity]. apply Hk. repeat split.
  - destruct Hfree as [H1 H2]. apply IH1; [exact H1|exact Hst|].
    intros a b Hab. now apply IH2.
  - destruct Hfree as [H1 H2].
    rewrite (IH1 H1 st st' k k' Hst Hk). now rewrite (IH2 H2 st st' k k' Hst Hk).
  - destruct Hst as (Hp & Hr & Hc). rewrite <- Hr, <- Hp, <- Hc.
    destruct g; [now apply rep_greedy_prev|now apply rep_lazy_prev].
  - destruct Hfree.
  - apply IH1; [exact Hfree|exact Hst|].
    intros a b (Hp & Hr & Hc). apply Hk.
    destruct Hst as (Hp' & Hr' & _). cbn [pos rest cap].
    repeat split; auto. now rewrite Hp, Hp', Hr'.
Qed.
End PrevIrrelevant.

Lemma match_at_prev r pv pv' s :
  bol_free r -> match_at r pv s = match_at r pv' s.
Proof.
  intros Hfree. unfold match_at. apply run_prev; [exact Hfree| |].
  - repeat split.
  - intros a b (Hp & _ & Hc). now rewrite Hp, Hc.
Qed.

Lemma sub_from_prev r repl :
  bol_free r ->
  forall s skip pv pv',
    sub_from r repl skip pv s = sub_from r repl skip pv' s.
Proof.
  intros Hfree. destruct s as [|c s]; intros skip pv pv'; cbn [sub_from];
    now rewrite (match_at_prev r pv pv' _ Hfree).
Qed.

(** ** Reading literals and runs *)

Lemma sub_from_skip r repl :
  forall s1 s2 pv,
    sub_from r repl (length s1) pv (s1 ++ s2)
    = sub_from r repl 0 (prev_after s1 pv) s2.
Proof.
  induction s1 as [|c s1 IH]; intros s2 pv; [reflexivity|].
  cbn [length app sub_from prev_after]. apply IH.
Qed.

Lemma ceq_refl c : ceq c c = true.
Proof. apply N.eqb_refl. Qed.

Lemma run_Lits (A : Type) (k : mstate -> option A) :
  forall l pv n s' cp,
    run (Lits l) (MState pv n (l ++ s') cp) k
    = k (MState (prev_after l pv) (n + length l) s' cp).
Proof.
  induction l as [|c l IH]; intros pv n s' cp.
  - cbn. now rewrite Nat.add_0_r.
  - cbn [Lits run rest app pos cap]. rewrite ceq_refl, IH.
    cbn [prev_after length]. now rewrite Nat.add_succ_r.
Qed.

(** A greedy repetition followed by something that accepts right after
    the whole run. *)
Lemma rep_greedy_run (A : Type) q (k : mstate -> option A) s' x :
  (forall c t, s' = c :: t -> q c = false) ->
  forall w min pv n cp,
    forallb q w = true -> (min <= length w)%nat ->
    k (MState (prev_after w pv) (n + length w) s' cp) = Some x ->
    rep_greedy q min pv n (w ++ s') cp k = Some x.
Proof.
  intros Hs'. induction w as [|c w IH]; intros min pv n cp Hw Hmin Hk.
  - cbn [length] in Hmin. assert (min = 0)%nat as -> by lia.
    cbn [app prev_after length] in *. rewrite Nat.add_0_r in Hk.
    destruct s' as [|d t]; cbn [rep_greedy]; [exact Hk|].
    now rewrite (Hs' d t eq_refl).
  - cbn [forallb] in Hw. apply andb_true_iff in Hw. destruct Hw as [Hc Hw].
    cbn [app rep_greedy]. rewrite Hc.
    rewrite (IH (Nat.pred min) (Some c) (S n) cp); [reflexivity|exact Hw| |].
    + cbn [length] in Hmin. lia.
    + cbn [prev_after length] in Hk. now rewrite Nat.add_succ_r in Hk.
Qed.

(** A lazy repetition stops at the first place where what follows
    accepts. *)
Lemma rep_lazy_until (A : Type) q (k : mstate -> option A) s' x :
  forall w min pv n cp,
    (forall st c t, rest st = c :: t -> In c w -> k st = None) ->
    forallb q w = true -> (min <= length w)%nat ->
    k (MState (prev_after w pv) (n + length w) s' cp) = Some x ->
    rep_lazy q min pv n (w ++ s') cp k = Some x.
Proof.
  induction w as [|c w IH]; intros min pv n cp Hfail Hw Hmin Hk.
  - cbn [length] in Hmin. assert (min = 0)%nat as -> by lia.
    cbn [app prev_after length] in *. rewrite Nat.add_0_r in Hk.
    destruct s' as [|d t]; cbn [rep_lazy]; now rewrite Hk.
  - cbn [forallb] in Hw. apply andb_true_iff in Hw. destruct Hw as [Hc Hw].
    cbn [app rep_lazy]. rewrite Hc.
    assert (Hrec : rep_lazy q (Nat.pred min) (Some c) (S n) (w ++ s') cp k
                   = Some x).
    { apply IH.
      - intros st d t Hr Hd. apply (Hfail st d t Hr). now right.
      - exact Hw.
      - cbn [length] in Hmin. lia.
      - cbn [prev_after length] in Hk. now rewrite Nat.add_succ_r in Hk. }
    destruct min; [|exact Hrec].
    rewrite (Hfail (MState pv n (c :: w ++ s') cp) c (w ++ s') eq_refl
               (or_introl eq_refl)).
    exact Hrec.
Qed.

(** ** A leading frontmatter block *)

Lemma needs_dash_frontmatter : needs (ceq 45%N) frontmatter_re.
Proof.
  unfold frontmatter_re. cbn [needs]. right. left.
  apply needs_Lits with (c := 45%N); [simpl; auto|reflexivity].
Qed.

Lemma match_frontmatter body tail :
  body <> [] -> free (ceq 45%N) body ->
  match_at frontmatter_re None (lit "---" ++ body ++ lit "---" ++ tail)
  = Some (length (lit "---" ++ body ++ lit "---"), []).
Proof.
  intros Hne Hfree. unfold match_at, frontmatter_re.
  cbn [run at_bol prev]. rewrite run_Lits. cbn [run prev pos rest cap].
  apply rep_lazy_until.
  - intros st c t Hr Hc. cbn [run Lits].
    change (lit "---") with [45%N; 45%N; 45%N]. cbn [run Lits]. rewrite Hr.
    rewrite free_in in Hfree. now rewrite (Hfree c Hc).
  - apply forallb_forall. reflexivity.
  - destruct body; [congruence|simpl; lia].
  - rewrite run_Lits. cbn [pos cap]. f_equal. f_equal.
    rewrite !length_app. change (length (lit "---")) with 3%nat. lia.
Qed.

(** Lines 17-18: a block between two "---" that opens the text is
    removed, and the text after it is kept, when neither the block nor
    that text holds a dash. *)
Theorem frontmatter_leading_block :
  forall body tail : str,
    body <> [] ->
    free (ceq (chr "-")) body ->
    free (ceq (chr "-")) tail ->
    remove_frontmatter (lit "---" ++ body ++ lit "---" ++ tail) = tail.
Proof.
  intros body tail Hne Hbody Htail.
  change (chr "-") with 45%N in *.
  unfold remove_frontmatter, re_sub.
  pose proof (match_frontmatter body tail Hne Hbody) as Hm.
  set (block := [45%N; 45%N] ++ body ++ lit "---").
  change (length (lit "---" ++ body ++ lit "---"))
    with (S (length block)) in Hm.
  assert (Htxt : lit "---" ++ body ++ lit "---" ++ tail
                 = 45%N :: block ++ tail).
  { subst block. cbn. now rewrite <- !app_assoc. }
  rewrite Htxt in Hm |- *.
  cbn [sub_from]. rewrite Hm. cbn [erase app]. rewrite sub_from_skip.
  now apply sub_from_free with (p := ceq 45%N);
    [apply needs_dash_frontmatter|].
Qed.

(** A title block before a line of plain text. *)
Lemma frontmatter_leading_block_witness :
  remove_frontmatter
    (lit "---" ++ lit (LF ++ "title: X" ++ LF) ++ lit "---"
     ++ lit (LF ++ "Hello world."))
  = lit (LF ++ "Hello world.").
Proof.
  apply (frontmatter_leading_block
           (lit (LF ++ "title: X" ++ LF)) (lit (LF ++ "Hello world."))).
  - discriminate.
  - vm_compute. reflexivity.
  - vm_compute. reflexivity.
Defined.

(** ** Markdown links *)

Lemma none_of_free c0 w :
  free (ceq c0) w -> forallb (none_of [c0]) w = true.
Proof.
  rewrite free_in. intros H. apply forallb_forall. intros c Hc.
  unfold none_of. cbn [existsb]. unfold ceq. rewrite N.eqb_sym.
  fold (ceq c0 c). now rewrite (H c Hc).
Qed.

Lemma firstn_length_app (A : Type) (w s : list A) :
  firstn (length w) (w ++ s) = w.
Proof. induction w; simpl; [reflexivity|now f_equal]. Qed.

Lemma match_link pv label target post :
  label <> [] -> free (ceq 93%N) label ->
  target <> [] -> free (ceq 41%N) target ->
  match_at link_re pv
    (lit "[" ++ label ++ lit "](" ++ target ++ lit ")" ++ post)
  = Some (S (length (label ++ lit "](" ++ target ++ lit ")")), label).
Proof.
  intros Hl Hlf Ht Htf. unfold match_at, link_re.
  cbn [run]. rewrite run_Lits. cbn [run prev pos rest cap].
  apply rep_greedy_run.
  - intros c t H. injection H as <- _. reflexivity.
  - now apply none_of_free.
  - destruct label; [congruence|simpl; lia].
  - cbn [prev pos rest cap].
    replace (0 + length (lit "[") + length label - (0 + length (lit "[")))%nat
      with (length label) by lia.
    rewrite firstn_length_app, run_Lits. cbn [prev pos rest cap].
    apply rep_greedy_run.
    + intros c t H. injection H as <- _. reflexivity.
    + now apply none_of_free.
    + destruct target; [congruence|simpl; lia].
    + rewrite run_Lits. cbn [pos cap]. f_equal. f_equal.
      rewrite !length_app.
      change (length (lit "[")) with 1%nat.
      change (length (lit "](")) with 2%nat.
      change (length (lit ")")) with 1%nat. lia.
Qed.

Lemma match_link_head pv c s :
  ceq 91%N c = false -> match_at link_re pv (c :: s) = None.
Proof.
  intros H. unfold match_at, link_re.
  change (lit "[") with [91%N]. cbn [run Lits rest]. now rewrite H.
Qed.

Lemma bol_free_link : bol_free link_re.
Proof. unfold link_re. cbn. tauto. Qed.

Lemma sub_link_prefix pre :
  free (ceq 91%N) pre ->
  forall s pv,
    sub_from link_re (fun g => g) 0 pv (pre ++ s)
    = pre ++ sub_from link_re (fun g => g) 0 None s.
Proof.
  induction pre as [|c pre IH]; intros Hfree s pv.
  - cbn [app]. apply sub_from_prev, bol_free_link.
  - apply free_cons in Hfree. destruct Hfree as [Hc Hfree].
    cbn [app sub_from]. rewrite (match_link_head pv c _ Hc).
    f_equal. now apply IH.
Qed.

Lemma re_sub_link pre label target post :
  free (ceq 91%N) pre ->
  label <> [] -> free (ceq 93%N) label ->
  target <> [] -> free (ceq 41%N) target ->
  re_sub link_re (fun g => g)
    (pre ++ lit "[" ++ label ++ lit "](" ++ target ++ lit ")" ++ post)
  = pre ++ label ++ re_sub link_re (fun g => g) post.
Proof.
  intros Hpre Hl Hlf Ht Htf.
  unfold re_sub. rewrite (sub_link_prefix pre Hpre). f_equal.
  pose proof (match_link None label target post Hl Hlf Ht Htf) as Hm.
  set (inner := label ++ lit "](" ++ target ++ lit ")") in *.
  assert (Htxt : lit "[" ++ label ++ lit "](" ++ target ++ lit ")" ++ post
                 = 91%N :: inner ++ post).
  { subst inner. rewrite <- !app_assoc. reflexivity. }
  rewrite Htxt in Hm |- *.
  cbn [sub_from]. rewrite Hm. rewrite sub_from_skip. f_equal.
  apply sub_from_prev, bol_free_link.
Qed.

(** Lines 20-22: a link [[label](target)] is replaced by its label and
    the target is dropped; the text before it (without an opening
    bracket) is kept and the text after it is rewritten in the same
    way. *)
Theorem link_rewrite :
  forall pre label target post : str,
    free (ceq (chr "[")) pre ->
    label <> [] -> free (ceq (chr "]")) label ->
    target <> [] -> free (ceq (chr ")")) target ->
    re_sub link_re (fun g => g)
      (pre ++ lit "[" ++ label ++ lit "](" ++ target ++ lit ")" ++ post)
    = pre ++ label ++ re_sub link_re (fun g => g) post.
Proof.
  intros pre label target post Hpre Hl Hlf Ht Htf.
  now apply re_sub_link.
Qed.

(** The link of the specification's example. *)
Lemma link_rewrite_witness :
  re_sub link_re (fun g => g)
    ([] ++ lit "[" ++ lit "OpenAI" ++ lit "](" ++ lit "https://openai.com"
     ++ lit ")" ++ lit " released a model.")
  = [] ++ lit "OpenAI"
    ++ re_sub link_re (fun g => g) (lit " released a model.").
Proof.
  apply (link_rewrite [] (lit "OpenAI") (lit "https://openai.com")
           (lit " released a model.")).
  - reflexivity.
  - discriminate.
  - vm_compute. reflexivity.
  - discriminate.
  - vm_compute. reflexivity.
Defined.

(** ** Raising the budget *)

Lemma take_budget_mono B1 B2 :
  (B1 <= B2)%Z ->
  forall (ranked : list (Z * str)) used,
    exists more,
      take_budget ranked used B2 = take_budget ranked used B1 ++ more.
Proof.
  intros Hle. induction ranked as [|[sc s] ranked IH]; intros used.
  - now exists [].
  - cbn [take_budget].
    destruct (Z.leb_spec (used + len s) B1) as [H1|H1].
    + destruct (Z.leb_spec (used + len s) B2) as [H2|H2]; [|lia].
      destruct (IH (used + len s)%Z) as [more ->]. now exists more.
    + cbn [app]. eexists. reflexivity.
Qed.

Lemma join_app_prefix sep (l more : list str) :
  l <> [] -> exists tail, join sep (l ++ more) = join sep l ++ tail.
Proof.
  induction l as [|s l IH]; [congruence|]. intros _.
  destruct l as [|t l].
  - destruct more as [|m more]; cbn [app join].
    + exists []. now rewrite app_nil_r.
    + now exists (sep ++ join sep (m :: more)).
  - destruct IH as [tail Htail]; [discriminate|].
    exists tail.
    change (join sep ((s :: t :: l) ++ more))
      with (s ++ sep ++ join sep ((t :: l) ++ more)).
    change (join sep (s :: t :: l)) with (s ++ sep ++ join sep (t :: l)).
    rewrite Htail. now rewrite <- !app_assoc.
Qed.

(** Raising the budget never drops or reorders a sentence: when the
    summary for the smaller budget is a join of sentences, the summary for
    the larger one starts with it. *)
Theorem summary_grows_with_budget :
  forall (U : unicode) (set_iter : list str -> list str)
         (text : str) (B1 B2 : Z),
    (B1 <= B2)%Z ->
    take_budget
      (sorted_desc pair_ltb
         (scored U set_iter (clean U text) (segment (clean U text))))
      0 B1 <> [] ->
    exists more,
      summarize U set_iter text B2 = summarize U set_iter text B1 ++ more.
Proof.
  intros U set_iter text B1 B2 Hle Hne. unfold summarize.
  set (ranked := sorted_desc pair_ltb _) in *.
  destruct (segment (clean U text)) as [|s0 l0] eqn:Eseg.
  { exfalso. apply Hne. subst ranked. reflexivity. }
  assert (Hlong : forall s, In s (map snd ranked) -> (20 < len s)%Z).
  { intros s Hs. subst ranked. apply ranked_in in Hs.
    rewrite <- Eseg in Hs. now apply segment_long in Hs. }
  destruct (take_budget_mono B1 B2 Hle ranked 0%Z) as [more Hmore].
  destruct (select_budget_shape ranked (clean U text) B1 Hlong)
    as [[_ ->]|[He _]]; [|contradiction].
  destruct (select_budget_shape ranked (clean U text) B2 Hlong)
    as [[_ ->]|[He _]].
  - rewrite Hmore. now apply join_app_prefix.
  - rewrite Hmore in He. apply app_eq_nil in He. tauto.
Qed.

(** Budgets 21 and 42 on a text of two sentences of 21 characters. *)
Lemma summary_grows_with_budget_witness :
  exists more,
    summarize ascii_tables seed0 sample_pair 42
    = summarize ascii_tables seed0 sample_pair 21 ++ more.
Proof.
  apply (summary_grows_with_budget ascii_tables seed0 sample_pair 21 42).
  - lia.
  - vm_compute. discriminate.
Defined.

(** ** The summary is extractive *)

(** Every sentence chosen for the summary stands verbatim in the clean
    text, and is made of characters of the input in their order. *)
Theorem summary_is_extractive :
  forall (U : unicode) (set_iter : list str -> list str)
         (text : str) (max_len : Z),
    Forall (fun s => substring s (clean U text) /\ subseq s text)
      (take_budget
         (sorted_desc pair_ltb
            (scored U set_iter (clean U text) (segment (clean U text))))
         0 max_len).
Proof.
  intros U set_iter text max_len. apply Forall_forall. intros s Hs.
  apply take_budget_incl, ranked_in, segment_shape in Hs.
  destruct Hs as (Hsub & _). split; [exact Hsub|].
  eapply subseq_trans; [apply substring_subseq, Hsub|apply clean_subseq].
Qed.

(** ** The references cut-off *)

Lemma clean_cut_references U x :
  clean U x
  = strip (cut_references U
      (re_sub (caption_re U) erase
         (re_sub markup_re erase
            (re_sub image_re erase
               (re_sub (noise_re U) erase
                  (re_sub link_re (fun g => g) (remove_frontmatter x))))))).
Proof. reflexivity. Qed.

Lemma match_cutoff_head U pv c s :
  ceq newline c = false -> match_at (cutoff_re U) pv (c :: s) = None.
Proof.
  intros H. unfold match_at, cutoff_re. cbn [run rest]. now rewrite H.
Qed.

Lemma search_from_prefix U pre :
  free (ceq newline) pre ->
  forall s i pv,
    search_from (cutoff_re U) i pv (pre ++ s)
    = search_from (cutoff_re U) (i + length pre) (prev_after pre pv) s.
Proof.
  induction pre as [|c pre IH]; intros Hfree s i pv.
  - cbn. now rewrite Nat.add_0_r.
  - apply free_cons in Hfree. destruct Hfree as [Hc Hfree].
    cbn [app search_from]. rewrite (match_cutoff_head U pv c _ Hc).
    rewrite IH by exact Hfree. cbn [prev_after length].
    now rewrite Nat.add_succ_r.
Qed.

Lemma run_LitsI (A : Type) U (k : mstate -> option A) pat h :
  ci_word U pat h ->
  forall pv n s' cp,
    run (LitsI U pat) (MState pv n (h ++ s') cp) k
    = k (MState (prev_after h pv) (n + length h) s' cp).
Proof.
  induction 1 as [|l c pat h Hc Hrest IH]; intros pv n s' cp.
  - cbn. now rewrite Nat.add_0_r.
  - cbn [LitsI run rest app pos cap].
    destruct (is_ascii_letter l); rewrite Hc, IH;
      cbn [prev_after length]; now rewrite Nat.add_succ_r.
Qed.

(** A greedy [p*] succeeds as soon as what follows accepts without it. *)
Lemma rep_greedy_zero (A : Type) q (k : mstate -> option A) pv n s cp :
  (exists x, k (MState pv n s cp) = Some x) ->
  exists y, rep_greedy q 0 pv n s cp k = Some y.
Proof.
  intros [x Hx]. destruct s as [|c s]; cbn [rep_greedy]; [now exists x|].
  destruct (q c); [|now exists x].
  destruct (rep_greedy q (Nat.pred 0) (Some c) (S n) s cp k) as [y|];
    [now exists y|now exists x].
Qed.

Lemma run_heading (A : Type) U (k : mstate -> option A) h pv n s' cp :
  is_heading U h ->
  (forall g, exists x,
     k (MState (prev_after h pv) (n + length h) s' g) = Some x) ->
  exists y,
    run (Grp (Alt (LitsI U (lit "references"))
                (Alt (LitsI U (lit "bibliography"))
                     (LitsI U (lit "appendix")))))
        (MState pv n (h ++ s') cp) k = Some y.
Proof.
  intros Hh Hk. cbn [run].
  set (k' := fun st' : mstate => k _).
  assert (Hk' : exists x,
            k' (MState (prev_after h pv) (n + length h) s' cp) = Some x).
  { subst k'. cbn beta. cbn [prev pos rest]. apply Hk. }
  destruct Hk' as [x Hx].
  destruct (run (LitsI U (lit "references")) (MState pv n (h ++ s') cp) k')
    as [y|] eqn:E1; [now exists y|].
  destruct (run (LitsI U (lit "bibliography")) (MState pv n (h ++ s') cp) k')
    as [y|] eqn:E2; [now exists y|].
  destruct Hh as [Hh|[Hh|Hh]].
  - rewrite (run_LitsI _ U k' _ h Hh) in E1. congruence.
  - rewrite (run_LitsI _ U k' _ h Hh) in E2. congruence.
  - rewrite (run_LitsI _ U k' _ h Hh). now exists x.
Qed.

Lemma run_Cat (A : Type) r1 r2 st (k : mstate -> option A) :
  run (Cat r1 r2) st k = run r1 st (fun st' => run r2 st' k).
Proof. reflexivity. Qed.

Lemma run_Chr_hit (A : Type) p pv n c s cp (k : mstate -> option A) :
  p c = true ->
  run (Chr p) (MState pv n (c :: s) cp) k = k (MState (Some c) (S n) s cp).
Proof. intros H. cbn [run rest pos cap]. now rewrite H. Qed.

Lemma run_Rep_greedy (A : Type) min p pv n s cp (k : mstate -> option A) :
  run (Rep true min p) (MState pv n s cp) k = rep_greedy p min pv n s cp k.
Proof. reflexivity. Qed.

Lemma match_cutoff U pv h tail :
  is_heading U h ->
  exists y,
    match_at (cutoff_re U) pv (newline :: h ++ newline :: tail) = Some y.
Proof.
  intros Hh. unfold match_at, cutoff_re.
  rewrite run_Cat, run_Chr_hit by apply ceq_refl.
  rewrite run_Cat, run_Rep_greedy. apply rep_greedy_zero.
  rewrite run_Cat. apply run_heading; [exact Hh|]. intros g.
  rewrite run_Cat, run_Rep_greedy. apply rep_greedy_zero.
  rewrite run_Chr_hit by apply ceq_refl. eexists. reflexivity.
Qed.

(** Lines 35-36: when a line holding only "references", "bibliography" or
    "appendix" (in any letter case) follows a first line, the text is cut
    back to that first line, whatever comes after the heading. *)
Theorem references_cut_off :
  forall (U : unicode) (body h tail : str),
    free (ceq newline) body ->
    is_heading U h ->
    cut_references U (body ++ newline :: h ++ newline :: tail) = body.
Proof.
  intros U body h tail Hbody Hh. unfold cut_references, re_search.
  rewrite (search_from_prefix U body Hbody).
  destruct (match_cutoff U (prev_after body None) h tail Hh) as [y Hy].
  cbn [search_from]. rewrite Hy. cbn [Nat.add]. apply firstn_length_app.
Qed.

(** The example of the specification, under the ASCII tables. *)
Lemma references_cut_off_witness :
  cut_references ascii_tables
    (lit "Body text here." ++ newline :: lit "References"
     ++ newline :: lit (LF ++ "[1] Citation."))
  = lit "Body text here.".
Proof.
  apply (references_cut_off ascii_tables (lit "Body text here.")
           (lit "References") (lit (LF ++ "[1] Citation."))).
  - vm_compute. reflexivity.
  - left. repeat constructor.
Defined.

(** ** Images *)

Lemma run_Rep_lazy (A : Type) min p pv n s cp (k : mstate -> option A) :
  run (Rep false min p) (MState pv n s cp) k = rep_lazy p min pv n s cp k.
Proof. reflexivity. Qed.

Lemma dot_free w : free (ceq newline) w -> forallb dot w = true.
Proof.
  rewrite free_in. intros H. apply forallb_forall. intros c Hc.
  unfold dot, ceq. rewrite N.eqb_sym. fold (ceq newline c).
  now rewrite (H c Hc).
Qed.

Lemma match_image pv alt target post :
  free (ceq 93%N) alt -> free (ceq newline) alt ->
  target <> [] -> free (ceq 41%N) target ->
  match_at image_re pv
    (lit "![" ++ alt ++ lit "](" ++ target ++ lit ")" ++ post)
  = Some (S (length (lit "[" ++ alt ++ lit "](" ++ target ++ lit ")")), []).
Proof.
  intros Ha Hnl Ht Htf. unfold match_at, image_re.
  rewrite run_Cat, run_Lits, run_Cat, run_Rep_lazy.
  apply rep_lazy_until.
  - intros st c t Hr Hc. rewrite run_Cat.
    change (lit "](") with [93%N; 40%N]. cbn [run Lits]. rewrite Hr.
    rewrite free_in in Ha. now rewrite (Ha c Hc).
  - now apply dot_free.
  - lia.
  - rewrite run_Cat, run_Lits, run_Cat, run_Rep_greedy.
    apply rep_greedy_run.
    + intros c t H. injection H as <- _. reflexivity.
    + now apply none_of_free.
    + destruct target; [congruence|simpl; lia].
    + rewrite run_Lits. cbn [pos cap]. f_equal. f_equal.
      rewrite !length_app.
      change (length (lit "![")) with 2%nat.
      change (length (lit "[")) with 1%nat.
      change (length (lit "](")) with 2%nat.
      change (length (lit ")")) with 1%nat. lia.
Qed.

Lemma match_image_head pv c s :
  (forall d t, s = d :: t -> ceq 91%N d = false) ->
  match_at image_re pv (c :: s) = None.
Proof.
  intros H. unfold match_at, image_re.
  change (lit "![") with [33%N; 91%N]. cbn [run Lits rest].
  destruct (ceq 33%N c); [|reflexivity].
  destruct s as [|d t]; [reflexivity|].
  now rewrite (H d t eq_refl).
Qed.

Lemma bol_free_image : bol_free image_re.
Proof. unfold image_re. cbn. tauto. Qed.

Lemma sub_image_prefix pre :
  free (ceq 91%N) pre ->
  forall s pv,
    (forall d t, s = d :: t -> ceq 91%N d = false) ->
    sub_from image_re erase 0 pv (pre ++ s)
    = pre ++ sub_from image_re erase 0 None s.
Proof.
  induction pre as [|c pre IH]; intros Hfree s pv Hs.
  - cbn [app]. apply sub_from_prev, bol_free_image.
  - apply free_cons in Hfree. destruct Hfree as [Hc Hfree].
    cbn [app sub_from]. rewrite match_image_head.
    + f_equal. now apply IH.
    + destruct pre as [|d pre]; cbn [app].
      * exact Hs.
      * intros d' t H. injection H as <- _.
        apply free_cons in Hfree. tauto.
Qed.

(** Line 26: an image [![alt](target)] whose alt text stays on one line is
    removed with its alt text; the text before it (without an opening
    bracket) is kept and the text after it is treated in the same way. *)
Theorem image_removed :
  forall pre alt target post : str,
    free (ceq (chr "[")) pre ->
    free (ceq (chr "]")) alt -> free (ceq newline) alt ->
    target <> [] -> free (ceq (chr ")")) target ->
    re_sub image_re erase
      (pre ++ lit "![" ++ alt ++ lit "](" ++ target ++ lit ")" ++ post)
    = pre ++ re_sub image_re erase post.
Proof.
  intros pre alt target post Hpre Ha Hnl Ht Htf.
  change (chr "[") with 91%N in Hpre. change (chr "]") with 93%N in Ha.
  change (chr ")") with 41%N in Htf.
  unfold re_sub. rewrite (sub_image_prefix pre Hpre).
  2:{ intros d t H. injection H as <- _. reflexivity. }
  f_equal.
  pose proof (match_image None alt target post Ha Hnl Ht Htf) as Hm.
  set (inner := lit "[" ++ alt ++ lit "](" ++ target ++ lit ")") in *.
  assert (Htxt : lit "![" ++ alt ++ lit "](" ++ target ++ lit ")" ++ post
                 = 33%N :: inner ++ post).
  { subst inner. rewrite <- !app_assoc. reflexivity. }
  rewrite Htxt in Hm |- *.
  cbn [sub_from]. rewrite Hm. cbn [erase app]. rewrite sub_from_skip.
  apply sub_from_prev, bol_free_image.
Qed.

(** An image between two words. *)
Lemma image_removed_witness :
  re_sub image_re erase
    (lit "see " ++ lit "![" ++ lit "a chart" ++ lit "](" ++ lit "fig.png"
     ++ lit ")" ++ lit " here")
  = lit "see " ++ re_sub image_re erase (lit " here").
Proof.
  apply (image_removed (lit "see ") (lit "a chart") (lit "fig.png")
           (lit " here")).
  - vm_compute. reflexivity.
  - vm_compute. reflexivity.
  - vm_compute. reflexivity.
  - discriminate.
  - vm_compute. reflexivity.
Defined.

Lemma needs_bracket_image : needs (ceq 91%N) image_re.
Proof.
  unfold image_re. cbn [needs]. left.
  apply needs_Lits with (c := 91%N); [simpl; auto|reflexivity].
Qed.

Lemma re_sub_nil r repl : match_at r None [] = None -> re_sub r repl [] = [].
Proof. intros H. unfold re_sub. cbn [sub_from]. now rewrite H. Qed.

(** Lines 22 and 26 together: the links are rewritten before the images
    are removed, so an image with a non-empty alt text is no longer an
    image when line 26 runs; what is left of it is "!" and the alt
    text. *)
Theorem image_alt_text_survives :
  forall alt target : str,
    alt <> [] -> free (ceq (chr "]")) alt -> free (ceq (chr "[")) alt ->
    target <> [] -> free (ceq (chr ")")) target ->
    re_sub image_re erase
      (re_sub link_re (fun g => g)
         (lit "![" ++ alt ++ lit "](" ++ target ++ lit ")"))
    = lit "!" ++ alt.
Proof.
  intros alt target Ha Haf Hab Ht Htf.
  change (chr "[") with 91%N in Hab. change (chr "]") with 93%N in Haf.
  change (chr ")") with 41%N in Htf.
  assert (Hlink : re_sub link_re (fun g => g)
                    (lit "![" ++ alt ++ lit "](" ++ target ++ lit ")")
                  = lit "!" ++ alt).
  { pose proof (re_sub_link (lit "!") alt target [] eq_refl Ha Haf Ht Htf)
      as H.
    rewrite re_sub_nil in H by reflexivity.
    rewrite !app_nil_r in H. rewrite <- H. reflexivity. }
  rewrite Hlink.
  apply re_sub_free with (p := ceq 91%N); [apply needs_bracket_image|].
  apply free_cons. split; [reflexivity|exact Hab].
Qed.

(** The image above, with alt text. *)
Lemma image_alt_text_survives_witness :
  re_sub image_re erase
    (re_sub link_re (fun g => g)
       (lit "![" ++ lit "a chart" ++ lit "](" ++ lit "fig.png" ++ lit ")"))
  = lit "!" ++ lit "a chart".
Proof.
  apply (image_alt_text_survives (lit "a chart") (lit "fig.png")).
  - discriminate.
  - vm_compute. reflexivity.
  - vm_compute. reflexivity.
  - discriminate.
  - vm_compute. reflexivity.
Defined.

(** ** Sizes in the report *)

(** Lines 90-91: a run calls [summarize] with the budget 450 and [tag]
    with 8, so the summary it prints has at most 470 characters and it
    prints at most 8 tags. *)
Theorem report_sizes :
  forall (U : unicode) (set_iter : list str -> list str) (text : str),
    (len (summary (run_script U set_iter text)) <=? 470)%Z = true /\
    (length (tags (run_script U set_iter text)) <=? 8)%nat = true.
Proof.
  intros U set_iter text. split.
  - apply Z.leb_le. cbn [run_script summary].
    pose proof (summarize_len_le U set_iter text 450) as H.
    change (Z.max 36 (Z.max (450 + 1) (450 + 450 / 21 - 1))) with 470%Z in H.
    apply H. lia.
  - apply Nat.leb_le. cbn [run_script tags]. unfold tag.
    rewrite length_map.
    apply (most_common_length 8).
Qed.

(** * Idempotence of [clean], exactly *)

(** ** A pattern that does not match leaves the text as it is *)

Lemma sub_from_no_match r repl :
  forall s i pv,
    search_from r i pv s = None -> sub_from r repl 0 pv s = s.
Proof.
  induction s as [|c s IH]; intros i pv H; cbn [search_from] in H;
    cbn [sub_from].
  - destruct (match_at r pv []); [discriminate|reflexivity].
  - destruct (match_at r pv (c :: s)); [discriminate|].
    f_equal. eapply IH, H.
Qed.

Lemma re_sub_no_match r repl s :
  re_search r s = None -> re_sub r repl s = s.
Proof. unfold re_search, re_sub. apply sub_from_no_match. Qed.

(** ** A pattern that needs a character consumes one *)

Lemma advances_pos st st' : advances st st' -> (pos st <= pos st')%nat.
Proof. intros (w & _ & Hp & _). lia. Qed.

Lemma advances_one pv n c s cp :
  advances (MState pv n (c :: s) cp) (MState (Some c) (S n) s cp).
Proof. exists [c]. cbn. repeat split; auto. lia. Qed.

Section Progress.
Variable A : Type.
Variable p : char -> bool.

Lemma run_progress r :
  needs p r ->
  forall st (k : mstate -> option A) x,
    run r st k = Some x ->
    exists st', advances st st' /\ (pos st < pos st')%nat /\ k st' = Some x.
Proof.
  induction r as [|q|r1 IH1 r2 IH2|r1 IH1 r2 IH2|g min q|ml|r1 IH1];
    intros Hneeds st k x H; cbn [needs] in Hneeds; cbn [run] in H.
  - destruct Hneeds.
  - destruct st as [pv n s cp]. cbn [rest pos cap] in H.
    destruct s as [|c s]; [discriminate|].
    destruct (q c); [|discriminate].
    eexists. split; [apply advances_one|split; [|exact H]]. cbn. lia.
  - destruct Hneeds as [H1|H2].
    + apply (IH1 H1) in H. destruct H as (st1 & Ha1 & Hlt & H).
      apply run_sound in H. destruct H as (st2 & Ha2 & H).
      exists st2. split; [eapply advances_trans; eauto|split; [|exact H]].
      apply advances_pos in Ha2. lia.
    + apply run_sound in H. destruct H as (st1 & Ha1 & H).
      apply (IH2 H2) in H. destruct H as (st2 & Ha2 & Hlt & H).
      exists st2. split; [eapply advances_trans; eauto|split; [|exact H]].
      apply advances_pos in Ha1. lia.
  - destruct Hneeds as [H1 H2]. destruct (run r1 st k) eqn:E.
    + injection H as ->. now apply (IH1 H1).
    + now apply (IH2 H2).
  - destruct Hneeds as [Hmin _]. destruct min as [|m]; [lia|].
    destruct st as [pv n s cp]. cbn [prev pos rest cap] in H.
    destruct s as [|c s]; [destruct g; discriminate|].
    assert (Hin : exists st', advances (MState (Some c) (S n) s cp) st' /\
                              k st' = Some x).
    { destruct g.
      - cbn [rep_greedy] in H. destruct (q c); [|discriminate].
        cbn [Nat.pred] in H.
        destruct (rep_greedy q m (Some c) (S n) s cp k) eqn:E;
          [|discriminate].
        injection H as ->. now apply rep_greedy_sound in E.
      - cbn [rep_lazy] in H. destruct (q c); [|discriminate].
        now apply rep_lazy_sound in H. }
    destruct Hin as (st' & Hadv & Hk).
    exists st'. split; [|split; [|exact Hk]].
    + eapply advances_trans; [apply advances_one|exact Hadv].
    + apply advances_pos in Hadv. cbn [pos] in *. lia.
  - destruct Hneeds.
  - apply (IH1 Hneeds) in H. destruct H as (st1 & (w & Hr & Hp & Hc) & Hlt & H).
    eexists. split; [|split; [|exact H]]; [|exact Hlt].
    exists w. cbn [rest pos cap]. split; [exact Hr|split; [exact Hp|]].
    right. exists [], []. rewrite app_nil_r. cbn [app].
    rewrite Hr, Hp.
    replace (pos st + length w - pos st)%nat with (length w) by lia.
    symmetry. apply firstn_length_app.
Qed.
End Progress.

(** A match of a pattern that needs a character is not empty. *)
Lemma match_at_positive p r pv s n g :
  needs p r -> match_at r pv s = Some (n, g) -> (0 < n <= length s)%nat.
Proof.
  intros Hn H. unfold match_at in H.
  apply (run_progress _ p r Hn) in H.
  destruct H as (st' & (w & Hr & Hp & _) & Hlt & Hk).
  injection Hk as <- _. cbn [pos rest] in *. split; [lia|].
  rewrite Hr, length_app. lia.
Qed.

Lemma substring_length (g w : str) :
  substring g w -> (length g <= length w)%nat.
Proof. intros (a & b & ->). rewrite !length_app. lia. Qed.

Lemma run_Chr_inv (A : Type) q pv n s cp (k : mstate -> option A) x :
  run (Chr q) (MState pv n s cp) k = Some x ->
  exists c s', s = c :: s' /\ k (MState (Some c) (S n) s' cp) = Some x.
Proof.
  cbn [run rest pos cap]. destruct s as [|c s]; [discriminate|].
  destruct (q c); [|discriminate]. intros H. now exists c, s.
Qed.

Lemma run_Eps (A : Type) st (k : mstate -> option A) : run Eps st k = k st.
Proof. reflexivity. Qed.

(** The label of a link is shorter than the link. *)
Lemma match_link_group pv s n g :
  match_at link_re pv s = Some (n, g) -> (length g < n)%nat.
Proof.
  unfold match_at, link_re. change (lit "[") with [91%N]. cbn [Lits].
  rewrite !run_Cat. intros H.
  apply run_Chr_inv in H. destruct H as (c & s' & -> & H).
  rewrite run_Eps in H. apply run_sound in H.
  destruct H as (st' & (w & Hr & Hp & Hc) & Hk).
  injection Hk as <- <-. cbn [pos cap] in *. rewrite Hp.
  destruct Hc as [->|Hc]; [simpl; lia|].
  apply substring_length in Hc. lia.
Qed.

(** ** A pattern that matches makes the text shorter *)

Lemma sub_from_length r repl :
  repl [] = [] ->
  (forall g w, substring g w -> subseq (repl g) w) ->
  forall s skip pv,
    (length (sub_from r repl skip pv s) <= length s - skip)%nat.
Proof.
  intros Hnil Hrepl s skip pv.
  pose proof (sub_from_subseq r repl Hnil Hrepl s skip pv) as H.
  apply subseq_length in H. now rewrite length_skipn in H.
Qed.

Lemma sub_from_shorter r repl :
  repl [] = [] ->
  (forall g w, substring g w -> subseq (repl g) w) ->
  (forall pv s n g,
     match_at r pv s = Some (n, g) -> (length (repl g) < n <= length s)%nat) ->
  forall s i pv j,
    search_from r i pv s = Some j ->
    (length (sub_from r repl 0 pv s) < length s)%nat.
Proof.
  intros Hnil Hrepl Hm. induction s as [|c s IH]; intros i pv j H;
    cbn [search_from] in H; cbn [sub_from].
  - destruct (match_at r pv []) as [[n g]|] eqn:E; [|discriminate].
    apply Hm in E. cbn in E. lia.
  - destruct (match_at r pv (c :: s)) as [[n g]|] eqn:E.
    + apply Hm in E. cbn [length] in E.
      destruct n as [|n]; [lia|].
      rewrite length_app.
      pose proof (sub_from_length r repl Hnil Hrepl s n (Some c)).
      cbn [length]. lia.
    + apply IH in H. cbn [length]. lia.
Qed.

Lemma search_from_bound r :
  (forall pv s n g,
     match_at r pv s = Some (n, g) -> (0 < n <= length s)%nat) ->
  forall s i pv j,
    search_from r i pv s = Some j -> (j < i + length s)%nat.
Proof.
  intros Hm. induction s as [|c s IH]; intros i pv j H;
    cbn [search_from] in H.
  - destruct (match_at r pv []) as [[n g]|] eqn:E; [|discriminate].
    apply Hm in E. cbn in E. lia.
  - destruct (match_at r pv (c :: s)) as [[n g]|] eqn:E.
    + injection H as <-. cbn [length]. lia.
    + apply IH in H. cbn [length]. lia.
Qed.

Lemma subseq_same_length a b :
  subseq a b -> length a = length b -> a = b.
Proof.
  induction 1 as [|c a b H IH|c a b H IH]; intros Hlen.
  - reflexivity.
  - apply subseq_length in H. cbn [length] in Hlen. lia.
  - f_equal. apply IH. cbn [length] in Hlen. lia.
Qed.

(** Removing matches shortens the text, unless there is none. *)
Lemma re_sub_erase_fixed p r s :
  needs p r ->
  length (re_sub r erase s) = length s -> re_search r s = None.
Proof.
  intros Hn Hlen. destruct (re_search r s) as [j|] eqn:E; [|reflexivity].
  exfalso. unfold re_search in E.
  apply (sub_from_shorter r erase eq_refl) in E.
  - unfold re_sub in Hlen. lia.
  - intros g w _. apply subseq_nil_l.
  - intros pv s' n g H. apply (match_at_positive p) in H; [|exact Hn].
    cbn [erase length]. exact H.
Qed.

Lemma re_sub_link_fixed s :
  length (re_sub link_re (fun g => g) s) = length s ->
  re_search link_re s = None.
Proof.
  intros Hlen. destruct (re_search link_re s) as [j|] eqn:E; [|reflexivity].
  exfalso. unfold re_search in E.
  apply (sub_from_shorter link_re (fun g => g) eq_refl) in E.
  - apply (Nat.lt_irrefl (length s)). rewrite <- Hlen at 1. exact E.
  - intros g w. apply substring_subseq.
  - intros pv s' n g H. split; [now apply match_link_group in H|].
    now apply (match_at_positive is_trigger link_re pv s' n g needs_link).
Qed.

(** ** The fixed points of [clean] *)

Lemma needs_markup_self : needs (one_of (lit "*#>`~")) markup_re.
Proof. unfold markup_re. cbn [needs]. auto. Qed.

Lemma clean_markup_free U x : free (one_of (lit "*#>`~")) (clean U x).
Proof.
  unfold clean. eapply free_subseq; [apply clean_tail_subseq|].
  apply sub_from_class_free.
Qed.

Lemma clean_strip_fixed U x : strip (clean U x) = clean U x.
Proof. unfold clean. apply strip_idempotent. Qed.

Lemma clean_fixed U y :
  pattern_free U y ->
  free (one_of (lit "*#>`~")) y -> strip y = y ->
  clean U y = y.
Proof.
  intros (H1 & H2 & H3 & H4 & H5 & H6) Hmark Hstrip.
  unfold clean, remove_frontmatter.
  rewrite (re_sub_no_match frontmatter_re erase y H1).
  rewrite (re_sub_no_match link_re _ y H2).
  rewrite (re_sub_no_match (noise_re U) erase y H3).
  rewrite (re_sub_no_match image_re erase y H4).
  rewrite (re_sub_free _ markup_re erase y needs_markup_self Hmark).
  rewrite (re_sub_no_match (caption_re U) erase y H5).
  rewrite H6. exact Hstrip.
Qed.

Lemma clean_fixed_inv U y : clean U y = y -> pattern_free U y.
Proof.
  intros Hfix. unfold clean, remove_frontmatter in Hfix.
  set (y1 := re_sub frontmatter_re erase y) in *.
  set (y2 := re_sub link_re (fun g => g) y1) in *.
  set (y3 := re_sub (noise_re U) erase y2) in *.
  set (y4 := re_sub image_re erase y3) in *.
  set (y5 := re_sub markup_re erase y4) in *.
  set (y6 := re_sub (caption_re U) erase y5) in *.
  set (y7 := match re_search (cutoff_re U) y6 with
             | Some i => firstn i y6
             | None => y6
             end) in *.
  assert (S1 : subseq y1 y) by apply re_sub_erase_subseq.
  assert (S2 : subseq y2 y1) by apply re_sub_group_subseq.
  assert (S3 : subseq y3 y2) by apply re_sub_erase_subseq.
  assert (S4 : subseq y4 y3) by apply re_sub_erase_subseq.
  assert (S5 : subseq y5 y4) by apply re_sub_erase_subseq.
  assert (S6 : subseq y6 y5) by apply re_sub_erase_subseq.
  assert (S7 : subseq y7 y6).
  { subst y7. destruct (re_search (cutoff_re U) y6);
      [apply subseq_firstn|apply subseq_refl]. }
  assert (S8 : subseq (strip y7) y7) by apply subseq_strip.
  pose proof (subseq_length _ _ S1). pose proof (subseq_length _ _ S2).
  pose proof (subseq_length _ _ S3). pose proof (subseq_length _ _ S4).
  pose proof (subseq_length _ _ S5). pose proof (subseq_length _ _ S6).
  pose proof (subseq_length _ _ S7). pose proof (subseq_length _ _ S8).
  assert (Hlen : length (strip y7) = length y) by now rewrite Hfix.
  assert (E1 : y1 = y) by (apply subseq_same_length; [exact S1|lia]).
  assert (E2 : y2 = y1) by (apply subseq_same_length; [exact S2|lia]).
  assert (E3 : y3 = y2) by (apply subseq_same_length; [exact S3|lia]).
  assert (E4 : y4 = y3) by (apply subseq_same_length; [exact S4|lia]).
  assert (E5 : y5 = y4) by (apply subseq_same_length; [exact S5|lia]).
  assert (E6 : y6 = y5) by (apply subseq_same_length; [exact S6|lia]).
  assert (L7 : length y7 = length y6) by lia.
  unfold pattern_free. repeat split.
  - apply (re_sub_erase_fixed is_trigger); [apply needs_frontmatter|].
    fold y1. now rewrite E1.
  - rewrite <- E1. apply re_sub_link_fixed. fold y2. now rewrite E2.
  - rewrite <- E1, <- E2.
    apply (re_sub_erase_fixed is_trigger); [apply needs_noise|].
    fold y3. now rewrite E3.
  - rewrite <- E1, <- E2, <- E3.
    apply (re_sub_erase_fixed is_trigger); [apply needs_image|].
    fold y4. now rewrite E4.
  - rewrite <- E1, <- E2, <- E3, <- E4, <- E5.
    apply (re_sub_erase_fixed (u_digit U)); [apply needs_caption|].
    fold y6. now rewrite E6.
  - rewrite <- E1, <- E2, <- E3, <- E4, <- E5, <- E6.
    destruct (re_search (cutoff_re U) y6) as [i|] eqn:E; [|reflexivity].
    exfalso. subst y7. unfold re_search in E.
    apply (search_from_bound (cutoff_re U)) in E.
    + rewrite length_firstn in L7. lia.
    + intros pv s n g Hm.
      now apply (match_at_positive is_trigger (cutoff_re U) pv s n g
                   (needs_cutoff U)).
Qed.

(** C4 (amended): normalizing twice gives the same as once exactly when
    the normal form holds no match of a pattern of the normalizer: no
    frontmatter block, no link, no citation, URL or doi record, no image,
    no caption line and no heading line.  What the input itself holds
    does not decide it. *)
Theorem clean_idempotent_iff :
  forall (U : unicode) (x : str),
    clean U (clean U x) = clean U x <-> pattern_free U (clean U x).
Proof.
  intros U x. split.
  - apply clean_fixed_inv.
  - intros H. apply clean_fixed; [exact H| |].
    + apply clean_markup_free.
    + apply clean_strip_fixed.
Qed.

(** The amended C4 at a text of two lines with markup symbols, digits, a
    colon and a dash. *)
Lemma clean_idempotent_iff_witness :
  clean ascii_tables (clean ascii_tables sample_prose)
  = clean ascii_tables sample_prose.
Proof.
  apply (proj2 (clean_idempotent_iff ascii_tables sample_prose)).
  vm_compute. repeat split.
Defined.
